(** * storage.js: the compact-encoding tables and the Radix codec

    A shallow embedding of [js/storage.js].

    Conventions of the embedding.
    - A JavaScript string is its sequence of UTF-16 code units
      ([jsstring]); [String.fromCharCode], [charCodeAt], [length],
      [split] and the regular expressions of the program all work on
      code units.
    - A Number holding an integer is a [Z]: the arithmetic of the program
      is exact on integers below 2^53, and the statements that depend on
      it say so ([safe_integer]); where the program tests a Number for
      being NaN, infinite, negative or fractional, the argument is a
      [jsnumber].
    - A plain object used as a dictionary is a finite map over its own
      properties.  An assignment to its property [__proto__] stores
      nothing ([assign]); reading a name that [Object.prototype] lends
      ([Object_prototype]) is outside the map, and the statements about
      missing names exclude those names.  An array that may have holes
      is a list of optional slots together with the properties that are
      not array indices.
    - A [throw] (and an engine error such as a ReferenceError) is the
      [Throw] outcome of a [result]; methods that mutate [this] are state
      transformers that return the outcome together with the new [this],
      so that what was written before a throw stays written.
    - The embedding follows the definition of the language: an array
      length is below 2^32, and what an engine may refuse for lack of
      memory is not modelled. *)

From Stdlib Require Import ZArith QArith Qround Lia List String Ascii.
From Stdlib Require Import DecimalString.
From stdpp Require Import base option list gmap.

Local Open Scope Z_scope.

(** ** Strings and outcomes *)

Definition jsstring := list Z.

(** A string literal of the source made of ASCII characters only. *)
Definition str (s : string) : jsstring :=
  map (fun a => Z.of_N (N_of_ascii a)) (list_ascii_of_string s).

Inductive exn : Type :=
  | InvalidInput          (* throw "The input is not valid" *)
  | NegativeNumber        (* throw "Can't represent negative numbers now" *)
  | WidthOverflow         (* throw "Radix result of ... is longer then padding of ..." *)
  | IncorrectParameters   (* throw "Incorrect parameters" *)
  | TypeNotRecognized     (* throw "Url's extension type isn't recognized: ..." *)
  | SizeNotRecognized     (* throw "Url's size isn't recognized: ..." *)
  | ReferenceError (identifier : string)
  | TypeError
  | RangeError            (* new Array(length) with a length of 2^32 or more *)
  | LoopBound.            (* the iteration bound of a modelled loop was reached *)

Inductive result (A : Type) : Type :=
  | Ok (a : A)
  | Throw (e : exn).
Arguments Ok {A} a.
Arguments Throw {A} e.

Definition rbind {A B} (r : result A) (k : A -> result B) : result B :=
  match r with
  | Ok a => k a
  | Throw e => Throw e
  end.

Notation "'try!' x ':=' r 'in' k" := (rbind r (fun x => k))
  (at level 10, x name, r at level 100, k at level 200).

(** State transformers over the receiver [this]. *)
Definition M (T A : Type) : Type := T -> result A * T.

Definition ret {T A} (a : A) : M T A := fun this => (Ok a, this).
Definition throw {T A} (e : exn) : M T A := fun this => (Throw e, this).
Definition bind {T A B} (m : M T A) (k : A -> M T B) : M T B :=
  fun this =>
    match m this with
    | (Ok a, this') => k a this'
    | (Throw e, this') => (Throw e, this')
    end.
Definition get {T} : M T T := fun this => (Ok this, this).
Definition modify {T} (f : T -> T) : M T unit := fun this => (Ok tt, f this).
Definition lift {T A} (r : result A) : M T A := fun this => (r, this).

(** Reading an identifier that no enclosing scope declares. *)
Definition unbound {T A} (identifier : string) : M T A :=
  throw (ReferenceError identifier).

Notation "'do!' x ':=' m 'in' k" := (bind m (fun x => k))
  (at level 10, x name, m at level 100, k at level 200).
Notation "m ';;!' k" := (bind m (fun _ => k))
  (at level 100, k at level 200, right associativity).

(** ** Radix *)

Inductive jsnumber : Type :=
  | NaN
  | PosInfinity
  | NegInfinity
  | Finite (q : Q).

Definition int (n : Z) : jsnumber := Finite (inject_Z n).

(** The non-negative integers on which the arithmetic of the program,
    done in double precision, is exact. *)
Definition safe_integer (n : Z) : Prop := 0 <= n < 2 ^ 53.

Module Radix.

Definition _offset : Z := 48.
Definition _length : Z := 10240.

(** [String.fromCharCode(c)] keeps the low 16 bits of [c]. *)
Definition fromCharCode (c : Z) : Z := c mod 65536.

(** The [while (true)] loop of [fromNumber], entered with [residual]
    and [result]; one unit of [fuel] per iteration.
    [Math.floor(residual / _length)] is the quotient of the integer
    division for a [safe_integer]; beyond, the program divides a rounded
    number. *)
Fixpoint digits (fuel : nat) (residual : Z) (result : jsstring) : option jsstring :=
  match fuel with
  | O => None
  | S fuel =>
      let rixit := residual mod _length in
      let result := fromCharCode (rixit + _offset) :: result in
      let residual := residual / _length in
      if residual =? 0 then Some result else digits fuel residual result
  end.

(** Enough iterations for any non-negative [residual]: each one divides
    it by [_length], which is more than 2. *)
Definition fuel_for (residual : Z) : nat := S (Z.to_nat (Z.log2 residual)).

(** The string built by the loop for [Math.floor(number)], before padding. *)
Definition unpadded (residual : Z) : result jsstring :=
  match digits (fuel_for residual) residual [] with
  | Some result => Ok result
  | None => Throw LoopBound
  end.

Definition fromNumber (number : jsnumber) (padding : option Z) : result jsstring :=
  match number with
  | NaN | PosInfinity => Throw InvalidInput
  | NegInfinity => Throw NegativeNumber
  | Finite q =>
      if negb (Qle_bool 0 q) then Throw NegativeNumber else
      try! result := unpadded (Qfloor q) in
      (* padding = padding || 1 *)
      let padding := match padding with
                     | None => 1
                     | Some p => if p =? 0 then 1 else p
                     end in
      if padding <? Z.of_nat (length result) then Throw WidthOverflow else
      if Z.of_nat (length result) >=? padding then Ok result else
      (* new Array(padding - result.length + 1).join('0') + result *)
      if 4294967295 <? padding - Z.of_nat (length result) + 1 then Throw RangeError else
      Ok (replicate (Z.to_nat (padding - Z.of_nat (length result))) 48 ++ result)
  end.

(** [toNumber(string)]; [None] is [undefined], on which [string.split]
    raises a TypeError.  Each step adds the code of the glyph before it
    takes [_offset] away: the program computes these sums exactly as
    long as they do not exceed 2^53. *)
Definition toNumber (string : option jsstring) : result Z :=
  match string with
  | None => Throw TypeError
  | Some string =>
      Ok (fold_left (fun result e => (result * _length) + e - _offset) string 0)
  end.

(** Number of glyphs of the natural (unpadded) representation. *)
Definition natural_width (n : Z) : Z :=
  match unpadded n with
  | Ok result => Z.of_nat (length result)
  | Throw _ => 0
  end.

End Radix.

Definition compressNumber := Radix.fromNumber.
Definition decompressNumber := Radix.toNumber.


(** ** Values, property keys and the helpers of the tables *)

Definition blank : jsstring := [].
Definition comma : jsstring := str ",".
(** [newline] is the one-character string ['\n'], kept as its code unit. *)
Definition newline : Z := 10.

Inductive value : Type :=
  | Undefined
  | Num (n : Z)
  | Str (s : jsstring).

(** Decimal form of an integer Number, as [ToString] gives it below
    10^21 (from there on the program writes an exponent). *)
Definition decimal (n : Z) : jsstring := str (NilZero.string_of_int (Z.to_int n)).

(** [ToString(v)]: the property key [v] stands for, and what [+] and
    [join] append for it. *)
Definition to_string (v : value) : jsstring :=
  match v with
  | Undefined => str "undefined"
  | Num n => decimal n
  | Str s => s
  end.

(** [array.join(sep)] on an array of strings. *)
Fixpoint join (sep : jsstring) (array : list jsstring) : jsstring :=
  match array with
  | [] => []
  | [x] => x
  | x :: rest => x ++ sep ++ join sep rest
  end.

(** [text.split(sep)] for a one-character separator. *)
Fixpoint split (sep : Z) (text : jsstring) : list jsstring :=
  match text with
  | [] => [[]]
  | c :: text =>
      if c =? sep then [] :: split sep text
      else match split sep text with
           | piece :: pieces => (c :: piece) :: pieces
           | [] => [[c]]
           end
  end.

(** A line terminator, which [.] does not match in a regular expression. *)
Definition line_terminator (c : Z) : bool :=
  (c =? 10) || (c =? 13) || (c =? 8232) || (c =? 8233).

(** [text.match(/.{2}/g)]: the successive matches of two characters other
    than line terminators, scanning from the left; after a failed attempt
    the scan resumes one character further. *)
Fixpoint match_dot2 (text : jsstring) : list jsstring :=
  match text with
  | a :: text' =>
      match text' with
      | b :: rest =>
          if line_terminator a || line_terminator b then match_dot2 text'
          else [a; b] :: match_dot2 rest
      | [] => []
      end
  | [] => []
  end.

(** The property names that [Object.prototype] lends to every plain
    object (ECMAScript, with its annex for browsers). *)
Definition Object_prototype : list jsstring :=
  [str "constructor"; str "toString"; str "toLocaleString"; str "valueOf";
   str "hasOwnProperty"; str "isPrototypeOf"; str "propertyIsEnumerable";
   str "__proto__"; str "__defineGetter__"; str "__defineSetter__";
   str "__lookupGetter__"; str "__lookupSetter__"].

Definition proto : jsstring := str "__proto__".

(** [object[key] = n] for a number [n] on a plain object: under the name
    [__proto__] the setter that [Object.prototype] lends is called, which
    ignores a value that is not an object, so that nothing is stored. *)
Definition assign (key : jsstring) (n : Z) (object : gmap jsstring Z) : gmap jsstring Z :=
  if bool_decide (key = proto) then object else <[key := n]> object.

(** A static object literal, looked up by property key. *)
Fixpoint property {V} (o : list (jsstring * V)) (key : jsstring) : option V :=
  match o with
  | [] => None
  | (k, v) :: o => if bool_decide (k = key) then Some v else property o key
  end.

(** ** Storage *)

Module Storage.

(** [load]: [this._decompress(localStorage[this.key])]; the value that
    [_decompress] returns is dropped.  [localStorage] is the map of its
    keys to the strings stored under them. *)
Definition load {T A : Type} (key : jsstring) (_decompress : option jsstring -> M T A)
    (localStorage : gmap jsstring jsstring) : M T unit :=
  _decompress (localStorage !! key) ;;! ret tt.

(** [save]: [storage[this.key] = this._compress()]; nothing is written
    when [_compress] throws. *)
Definition save {T : Type} (key : jsstring) (_compress : T -> result jsstring) (this : T)
    (storage : gmap jsstring jsstring) : result (gmap jsstring jsstring) :=
  try! text := _compress this in
  Ok (<[key := text]> storage).

End Storage.

(** ** Names *)

Module Names.

Record t : Type := { string : gmap jsstring Z; number : list jsstring }.

Definition empty : t := {| string := ∅; number := [] |}.

(** [Data.lookup]: [this[typeof key][key]], on the own properties of
    the two indexes (for a name of [Object_prototype] that the string
    index does not hold, the program finds what every object inherits). *)
Definition lookup (key : value) (this : t) : result value :=
  match key with
  | Num n =>
      Ok (if n <? 0 then Undefined
          else match number this !! Z.to_nat n with
               | Some name => Str name
               | None => Undefined
               end)
  | Str s =>
      Ok (match string this !! s with
          | Some id => Num id
          | None => Undefined
          end)
  | Undefined => Throw TypeError      (* this["undefined"] is undefined *)
  end.

Definition add (name : jsstring) : M t Z :=
  fun this =>
    let id := Z.of_nat (length (number this)) in
    let this := {| string := assign name id (string this); number := number this |} in
    let this := {| string := string this; number := number this ++ [name] |} in
    (Ok id, this).

Definition _compress (this : t) : jsstring := join [newline] (number this).

Fixpoint decompress_loop (array : list jsstring) (this : t) : t :=
  match array with
  | [] => this
  | item :: array =>
      let this := {| string := assign item (Z.of_nat (length (number this))) (string this);
                     number := number this |} in
      let this := {| string := string this; number := number this ++ [item] |} in
      decompress_loop array this
  end.

Definition _decompress (text : option jsstring) : M t bool :=
  fun this =>
    (* text && text.split(newline) || [] *)
    let array := match text with
                 | None | Some [] => []
                 | Some text => split newline text
                 end in
    let this := {| string := ∅; number := [] |} in
    let this := decompress_loop array this in
    (Ok (bool_decide (length (number this) = length array)), this).

Definition key : jsstring := str "n".

Definition load (localStorage : gmap jsstring jsstring) : M t unit :=
  Storage.load key _decompress localStorage.

Definition save (this : t) (storage : gmap jsstring jsstring)
    : result (gmap jsstring jsstring) :=
  Storage.save key (fun this => Ok (_compress this)) this storage.

(** [add] called on each name of a list in turn. *)
Definition add_all (names : list jsstring) (this : t) : t :=
  fold_left (fun this name => snd (add name this)) names this.

End Names.

(** ** Tracks *)

Module Tracks.

Record t : Type := { string : gmap jsstring Z; number : list (list Z) }.

Definition empty : t := {| string := ∅; number := [] |}.

Definition add (track : list Z) : M t Z :=
  fun this =>
    let id := Z.of_nat (length (number this)) in
    let this := {| string := <[join comma (map decimal track) := id]> (string this);
                   number := number this |} in
    let this := {| string := string this; number := number this ++ [track] |} in
    (Ok id, this).

(** [addString]: in [this.number[i] = track.split(comma)] the index
    [i] is read before the right-hand side is evaluated, and neither
    the method nor the script declares an [i]; the assignment and the
    [return] after it are never reached. *)
Definition addString (track : jsstring) : M t Z :=
  do! this := get in
  let id := Z.of_nat (length (number this)) in
  modify (fun this =>
    {| string := assign track id (string this); number := number this |}) ;;!
  unbound "i".

Fixpoint compress_names (track : list Z) (array : list jsstring) : result (list jsstring) :=
  match track with
  | [] => Ok array
  | name :: track =>
      try! code := compressNumber (int name) (Some 2) in
      compress_names track (array ++ [code])
  end.

Fixpoint compress_tracks (tracks : list (list Z)) (array : list jsstring)
    : result (list jsstring) :=
  match tracks with
  | [] => Ok array
  | track :: tracks =>
      try! array := compress_names track array in
      compress_tracks tracks array
  end.

Definition _compress (this : t) : result jsstring :=
  try! array := compress_tracks (number this) [] in
  Ok (join blank array).

(** The loop of [_decompress] over what is left of [array] from
    [trackIndex] on: [array[trackIndex]], [array[++trackIndex]] and
    [array[++trackIndex]] are its first three elements (reading past the
    end gives [undefined]), and the next iteration starts after them. *)
Fixpoint decompress_loop (array : list jsstring) : M t unit :=
  match array with
  | [] => ret tt
  | c0 :: array1 =>
      do! n0 := lift (decompressNumber (Some c0)) in
      do! n1 := lift (decompressNumber (head array1)) in
      do! n2 := lift (decompressNumber (head (tail array1))) in
      let track := [n0; n1; n2] in
      modify (fun this =>
        {| string := <[join comma (map decimal track) := Z.of_nat (length (number this))]>
                       (string this);
           number := number this |}) ;;!
      modify (fun this =>
        {| string := string this; number := number this ++ [track] |}) ;;!
      match array1 with
      | _ :: _ :: array3 => decompress_loop array3
      | _ => ret tt
      end
  end.

Definition _decompress (text : option jsstring) : M t bool :=
  (* text && text.match(/.{2}/g) || [] *)
  let array := match text with
               | None => []
               | Some text => match_dot2 text
               end in
  modify (fun _ => {| string := ∅; number := [] |}) ;;!
  decompress_loop array ;;!
  do! this := get in
  ret (bool_decide (length (number this) = length array)).

Definition key : jsstring := str "t".

Definition load (localStorage : gmap jsstring jsstring) : M t unit :=
  Storage.load key _decompress localStorage.

Definition save (this : t) (storage : gmap jsstring jsstring)
    : result (gmap jsstring jsstring) :=
  Storage.save key _compress this storage.

(** What [lookup] (inherited from [Data]: [this[typeof key][key]]) finds
    in this table: nothing, the id stored for a string key, or the track
    stored at a number key. *)
Inductive found : Type :=
  | NotFound
  | Id (id : Z)
  | Track (track : list Z).

Definition lookup (key : value) (this : t) : result found :=
  match key with
  | Num n =>
      Ok (if n <? 0 then NotFound
          else match number this !! Z.to_nat n with
               | Some track => Track track
               | None => NotFound
               end)
  | Str s =>
      Ok (match string this !! s with
          | Some id => Id id
          | None => NotFound
          end)
  | Undefined => Throw TypeError      (* this["undefined"] is undefined *)
  end.

(** [artist]: [this.lookup(key)[0]]. *)
Definition artist (key : value) (this : t) : result value :=
  try! entry := lookup key this in
  match entry with
  | NotFound => Throw TypeError       (* undefined[0] *)
  | Id _ => Ok Undefined              (* a number has no property 0 *)
  | Track track => Ok (match head track with
                       | Some name => Num name
                       | None => Undefined
                       end)
  end.

(** [add] called on each track of a list in turn. *)
Definition add_all (tracks : list (list Z)) (this : t) : t :=
  fold_left (fun this track => snd (add track this)) tracks this.

End Tracks.

(** ** Arrays with holes *)

(** A JavaScript array: its indexed slots up to [length] (a hole is
    [None]) and its other own properties. *)
Record jsarray (A : Type) : Type := { elems : list (option A); props : gmap jsstring A }.
Arguments elems {A} _.
Arguments props {A} _.

Fixpoint parse_digits (s : jsstring) (acc : Z) : option Z :=
  match s with
  | [] => Some acc
  | c :: s => if (48 <=? c) && (c <=? 57) then parse_digits s (acc * 10 + (c - 48)) else None
  end.

(** The array index a property key denotes, if it is one: the canonical
    decimal form of an integer from 0 to 2^32 - 2. *)
Definition array_index (key : value) : option nat :=
  match key with
  | Undefined => None
  | Num n => if (0 <=? n) && (n <? 4294967295) then Some (Z.to_nat n) else None
  | Str [] => None
  | Str s =>
      match parse_digits s 0 with
      | Some n => if bool_decide (decimal n = s) && (n <? 4294967295)
                  then Some (Z.to_nat n) else None
      | None => None
      end
  end.

(** [array[key]] *)
Definition array_get {A} (key : value) (array : jsarray A) : option A :=
  match array_index key with
  | Some i => match elems array !! i with
              | Some slot => slot
              | None => None
              end
  | None => props array !! to_string key
  end.

(** [array[key] = v]: writing at or past [length] extends the array,
    leaving holes in between. *)
Definition array_set {A} (key : value) (v : A) (array : jsarray A) : jsarray A :=
  match array_index key with
  | Some i =>
      {| elems := if bool_decide (i < length (elems array))%nat
                  then <[i := Some v]> (elems array)
                  else elems array ++ replicate (i - length (elems array)) None ++ [Some v];
         props := props array |}
  | None => {| elems := elems array; props := <[to_string key := v]> (props array) |}
  end.

(** ** Images, ArtistImages and AlbumImages *)

Module Images.

Record obj : Type := { id : value; size : Z; hash : value; type : Z }.

Record t : Type := {
  key : jsstring;
  _sizes : list (jsstring * value);
  string : gmap jsstring obj;
  number : jsarray obj
}.

Definition _url : jsstring := str "http://userserve-ak.last.fm/serve/".

Definition _compressSizes : list (jsstring * Z) :=
  [(str "34", 1); (str "64", 2); (str "126", 3); (str "252", 4); (str "300", 5)].

Definition _compressTypes : list (jsstring * Z) :=
  [(str "png", 10); (str "jpg", 20); (str "jpeg", 30); (str "gif", 40)].

Definition _types : list (jsstring * value) :=
  [(str "10", Str (str "png")); (str "20", Str (str "jpg"));
   (str "30", Str (str "jpeg")); (str "40", Str (str "gif"))].

(** [object[key]] read for use in a concatenation: a missing property
    is [undefined]. *)
Definition read (o : list (jsstring * value)) (key : value) : value :=
  match property o (to_string key) with
  | Some v => v
  | None => Undefined
  end.

Definition lookup (key : value) (this : t) : result jsstring :=
  try! obj := match key with
              | Num _ => Ok (array_get key (number this))
              | Str s => Ok (string this !! s)
              | Undefined => Throw TypeError
              end in
  match obj with
  | None => Throw TypeError                    (* obj.size on undefined *)
  | Some obj =>
      Ok (_url ++ to_string (read (_sizes this) (Num (size obj))) ++ str "/"
            ++ to_string (hash obj) ++ str "."
            ++ to_string (read _types (Num (type obj))))
  end.

(** [add]; [names] is the global [Names] table the method consults.
    The tests [!this._compressTypes[type]] and [!this._compressSizes[size]]
    are read on the own properties of the two tables, which is what the
    program does for every key outside [Object_prototype]. *)
Definition add (names : Names.t) (id size hash type : value) : M t value :=
  do! name_id := lift
    match id with
    | Num _ => try! name := Names.lookup id names in Ok (name, id)
    | Str _ => let name := id in
               try! id := Names.lookup name names in Ok (name, id)
    | Undefined => Throw IncorrectParameters
    end in
  let '(name, id) := name_id in
  match property _compressTypes (to_string type) with
  | None => throw TypeNotRecognized
  | Some ctype =>
      match property _compressSizes (to_string size) with
      | None => throw SizeNotRecognized
      | Some csize =>
          let obj := {| id := id; size := csize; hash := hash; type := ctype |} in
          modify (fun this =>
            {| key := key this; _sizes := _sizes this; string := string this;
               number := array_set id obj (number this) |}) ;;!
          modify (fun this =>
            {| key := key this; _sizes := _sizes this;
               string := <[to_string name := obj]> (string this);
               number := number this |}) ;;!
          ret id
      end
  end.

(** How a call ends when the program may also throw a string that it
    builds at the [throw]. *)
Inductive outcome (A : Type) : Type :=
  | Returns (a : A)
  | Throws (e : exn)
  | ThrowsString (message : jsstring).
Arguments Returns {A} a.
Arguments Throws {A} e.
Arguments ThrowsString {A} message.

Definition of_result {A} (r : result A) : outcome A :=
  match r with
  | Ok a => Returns a
  | Throw e => Throws e
  end.

(** [\d]: an ASCII digit. *)
Definition is_digit (c : Z) : bool := (48 <=? c) && (c <=? 57).

(** [pattern], a word in lower-case ASCII letters, matched at the start
    of [text] without regard to case (flag [i]); the part of [text] that
    matched. *)
Fixpoint match_word (pattern text : jsstring) : option jsstring :=
  match pattern with
  | [] => Some []
  | p :: pattern =>
      match text with
      | c :: text =>
          if (c =? p) || (c =? p - 32)
          then match match_word pattern text with
               | Some matched => Some (c :: matched)
               | None => None
               end
          else None
      | [] => None
      end
  end.

(** [(jpg|jpeg|png|gif)] at the start of [text]: the first alternative
    that matches. *)
Definition match_extension (text : jsstring) : option jsstring :=
  match match_word (str "jpg") text with
  | Some matched => Some matched
  | None =>
      match match_word (str "jpeg") text with
      | Some matched => Some matched
      | None =>
          match match_word (str "png") text with
          | Some matched => Some matched
          | None => match_word (str "gif") text
          end
      end
  end.

(** The longest run of digits at the start of [text] ([\d+], greedy). *)
Fixpoint digit_run (text : jsstring) : jsstring :=
  match text with
  | c :: text => if is_digit c then c :: digit_run text else []
  | [] => []
  end.

(** [url.match(/\d+|(jpg|jpeg|png|gif)/gi)]: the matches from left to
    right; after a match the scan resumes behind it, after a failed
    attempt one character further.  Every step consumes a character, so
    the length of [text] is fuel enough ([match_url]). *)
Fixpoint url_matches (fuel : nat) (text : jsstring) : list jsstring :=
  match fuel with
  | O => []
  | S fuel =>
      match text with
      | [] => []
      | c :: rest =>
          if is_digit c
          then digit_run text :: url_matches fuel (drop (length (digit_run text)) text)
          else match match_extension text with
               | Some matched => matched :: url_matches fuel (drop (length matched) text)
               | None => url_matches fuel rest
               end
      end
  end.

Definition match_url (url : jsstring) : list jsstring :=
  url_matches (length url) url.

(** [addUrl]; a missing argument is [None]. *)
Definition addUrl (names : Names.t) (id : value) (url : option jsstring)
    : t -> outcome value * t :=
  fun this =>
    (* url && url.match(/\d+|(jpg|jpeg|png|gif)/gi) || [] *)
    let array := match url with
                 | None | Some [] => []
                 | Some url => match_url url
                 end in
    (* the last three matches: array[length - 3], array[length - 2], array[length - 1] *)
    match rev array with
    | last :: middle :: first :: _ =>
        let '(r, this) := add names id (Str first) (Str middle) (Str last) this in
        (of_result r, this)
    | _ =>
        (* length < 3 *)
        (ThrowsString (str "Url isn't correct: "
                         ++ match url with
                            | None => str "undefined"
                            | Some url => url
                            end),
         this)
    end.

(** [text.substr(start, length)] *)
Definition substr (start length : nat) (text : jsstring) : jsstring :=
  take length (drop start text).

(** [text.match(/.{5}/g)] *)
Fixpoint match_dot5 (text : jsstring) : list jsstring :=
  match text with
  | a :: text' =>
      match text' with
      | b :: c :: d :: e :: rest =>
          if line_terminator a || line_terminator b || line_terminator c
             || line_terminator d || line_terminator e
          then match_dot5 text'
          else [a; b; c; d; e] :: match_dot5 rest
      | _ => []
      end
  | [] => []
  end.

(** The body of the loop of [_decompress] for one 5-glyph record. *)
Definition decompress_record (names : Names.t) (record : jsstring) : M t unit :=
  (* [code] and [remainder] are the [number] and [mod] of the source *)
  do! code := lift (decompressNumber (Some (substr 2 1 record))) in
  let remainder := Z.rem code 10 in
  do! record_id := lift (decompressNumber (Some (substr 0 2 record))) in
  do! record_hash := lift (decompressNumber (Some (substr 3 2 record))) in
  let obj := {| id := Num record_id; size := remainder;
                hash := Num record_hash; type := code - remainder |} in
  do! name := lift (Names.lookup (id obj) names) in
  modify (fun this =>
    {| key := key this; _sizes := _sizes this; string := string this;
       number := array_set (id obj) obj (number this) |}) ;;!
  modify (fun this =>
    {| key := key this; _sizes := _sizes this;
       string := <[to_string name := obj]> (string this);
       number := number this |}).

Fixpoint decompress_loop (names : Names.t) (array : list jsstring) : M t unit :=
  match array with
  | [] => ret tt
  | record :: array => decompress_record names record ;;! decompress_loop names array
  end.

(** [_decompress]; [names] is the global [Names] table. *)
Definition _decompress (names : Names.t) (text : option jsstring) : M t bool :=
  (* text && text.match(/.{5}/g) || [] *)
  let array := match text with
               | None => []
               | Some text => match_dot5 text
               end in
  modify (fun this =>
    {| key := key this; _sizes := _sizes this; string := ∅;
       number := {| elems := []; props := ∅ |} |}) ;;!
  decompress_loop names array ;;!
  ret true.

(** [Number(v)] for a value handed to [compressNumber]; what the engine
    makes of a string is the parameter [StringToNumber]. *)
Definition to_number (StringToNumber : jsstring -> jsnumber) (v : value) : jsnumber :=
  match v with
  | Undefined => NaN
  | Num n => int n
  | Str s => StringToNumber s
  end.

(** The right-hand side of [text += ...] in [_compress]. *)
Definition compress_record (StringToNumber : jsstring -> jsnumber) (obj : obj)
    : result jsstring :=
  try! code_id := compressNumber (to_number StringToNumber (id obj)) (Some 2) in
  try! code_size_type := compressNumber (int (size obj + type obj)) None in
  try! code_hash := compressNumber (to_number StringToNumber (hash obj)) (Some 2) in
  Ok (code_id ++ code_size_type ++ code_hash).

(** The loop of [_compress] over the slots of [this.number]; whatever
    the [try] block throws is replaced by the message of the [catch]
    block, whose last operand, [Names.lookup(obj.id)], may throw itself. *)
Fixpoint compress_loop (StringToNumber : jsstring -> jsnumber) (names : Names.t)
    (slots : list (option obj)) (text : jsstring) : outcome jsstring :=
  match slots with
  | [] => Returns text
  | None :: slots => compress_loop StringToNumber names slots text
  | Some obj :: slots =>
      match compress_record StringToNumber obj with
      | Ok code => compress_loop StringToNumber names slots (text ++ code)
      | Throw _ =>
          match Names.lookup (id obj) names with
          | Ok name =>
              ThrowsString (str "Error compressing Image id = " ++ to_string (id obj)
                              ++ str ", hash = " ++ to_string (hash obj)
                              ++ str ", size = " ++ decimal (size obj)
                              ++ str ", type = " ++ decimal (type obj)
                              ++ str ", Name = " ++ to_string name)
          | Throw e => Throws e
          end
      end
  end.

Definition _compress (StringToNumber : jsstring -> jsnumber) (names : Names.t) (this : t)
    : outcome jsstring :=
  compress_loop StringToNumber names (elems (number this)) [].

(** The two glyphs of [n] are characters that [.] matches. *)
Definition dot_glyphs (n : Z) : Prop :=
  line_terminator (n / Radix._length + Radix._offset) = false /\
  line_terminator (n mod Radix._length + Radix._offset) = false.

(** A record at the array index [index] as [add] stores it for a number
    hash and [_decompress] rebuilds it, within the capacity of the
    5-glyph format. *)
Definition storable (index : Z) (o : obj) : Prop :=
  id o = Num index /\
  0 <= index < Radix._length ^ 2 /\ dot_glyphs index /\
  1 <= size o <= 5 /\
  (type o = 10 \/ type o = 20 \/ type o = 30 \/ type o = 40) /\
  exists h, hash o = Num h /\ 0 <= h < Radix._length ^ 2 /\ dot_glyphs h.

(** The five glyphs of a record whose id and hash are numbers within
    the capacity of their fields. *)
Definition record_glyphs (o : obj) : jsstring :=
  match id o, hash o with
  | Num i, Num h =>
      [i / Radix._length + Radix._offset; i mod Radix._length + Radix._offset;
       size o + type o + Radix._offset;
       h / Radix._length + Radix._offset; h mod Radix._length + Radix._offset]
  | _, _ => []
  end.

End Images.

Definition ArtistImages : Images.t :=
  {| Images.key := str "a";
     Images._sizes := [(str "1", Num 34); (str "2", Num 64); (str "3", Num 126);
                       (str "4", Num 252); (str "5", Str (str "300x300"))];
     Images.string := ∅;
     Images.number := {| elems := []; props := ∅ |} |}.

Definition AlbumImages : Images.t :=
  {| Images.key := str "b";
     Images._sizes := [(str "1", Str (str "34s")); (str "2", Str (str "64s"));
                       (str "3", Num 126); (str "4", Num 252);
                       (str "5", Str (str "300x300"))];
     Images.string := ∅;
     Images.number := {| elems := []; props := ∅ |} |}.

(** ** User *)

Module User.

(** An object whose property names are integers, as the list of its
    properties in the order [for ... in] visits them.  The loop
    variable is the property name, which [compressNumber] converts
    back to the integer it spells. *)
Definition obj (V : Type) : Type := list (Z * V).

Record t : Type := {
  key : jsstring;
  stats : obj (obj (obj Z));
  loved : list Z
}.

Definition new (username : jsstring) : t :=
  {| key := username; stats := []; loved := [] |}.

Fixpoint compress_tracks (tracks : obj Z) (text : jsstring) : result jsstring :=
  match tracks with
  | [] => Ok text
  | (track, plays) :: tracks =>
      try! code := compressNumber (int track) (Some 2) in
      try! count := compressNumber (int plays) None in
      compress_tracks tracks (text ++ code ++ count)
  end.

Fixpoint compress_months (months : obj (obj Z)) (array : list jsstring)
    : result (list jsstring) :=
  match months with
  | [] => Ok array
  | (month, tracks) :: months =>
      try! text := compressNumber (int month) None in
      try! text := compress_tracks tracks text in
      compress_months months (array ++ [text])
  end.

Fixpoint compress_years (years : obj (obj (obj Z))) (array : list jsstring)
    : result (list jsstring) :=
  match years with
  | [] => Ok array
  | (year, months) :: years =>
      try! code := compressNumber (int year) None in
      try! array := compress_months months (array ++ [code]) in
      compress_years years array
  end.

Definition _compress (this : t) : result jsstring :=
  let array := [join blank (map decimal (loved this))] in
  try! array := compress_years (stats this) array in
  Ok (join [newline] array).

(** [_decompress]: the initialiser of [array], in the [var] statement
    that opens the method, is [test && text.split(newline) || []], and
    neither the method, the enclosing function nor the script declares
    a [test]; nothing of the method runs after that read. *)
Definition _decompress (text : option jsstring) : M t unit :=
  unbound "test".

(** The numbers of a month, of a year and of the whole history are
    within the capacity of their fields: one glyph for a year, a month
    and a play count, two glyphs for a track id. *)
Definition tracks_fit (tracks : obj Z) : Prop :=
  Forall (fun entry => 0 <= fst entry < Radix._length ^ 2 /\
                       0 <= snd entry < Radix._length) tracks.

Definition months_fit (months : obj (obj Z)) : Prop :=
  Forall (fun entry => 0 <= fst entry < Radix._length /\ tracks_fit (snd entry)) months.

Definition stats_fit (years : obj (obj (obj Z))) : Prop :=
  Forall (fun entry => 0 <= fst entry < Radix._length /\ months_fit (snd entry)) years.

End User.

(** The record of the specification's example: stats
    [{2020: {3: {5: 2}}}] and loved [[7, 9]]. *)
Definition example_user : User.t :=
  {| User.key := str "nick";
     User.stats := [(2020, [(3, [(5, 2)])])];
     User.loved := [7; 9] |}.

(** ** compressArray and decompressArray *)

(** [pipe] is the one-character string ['|'], kept as its code unit. *)
Definition pipe : Z := 124.

Definition compressArray (array : list jsstring) : jsstring := join [pipe] array.

Definition decompressArray (text : jsstring) : list jsstring := split pipe text.

(** * Properties *)

(** ** Radix *)

Section RadixFacts.

Import Radix.

Local Abbreviation step := (fun result e => (result * _length) + e - _offset).

Lemma fromCharCode_rixit (residual : Z) :
  fromCharCode (residual mod _length + _offset) = residual mod _length + _offset.
Proof.
  unfold fromCharCode, _length, _offset.
  pose proof (Z.mod_pos_bound residual 10240 ltac:(lia)).
  apply Z.mod_small. lia.
Qed.

(** What the digit loop computes when it is given enough iterations. *)
Lemma digits_spec (fuel : nat) :
  forall residual result,
    0 <= residual < 2 ^ Z.of_nat fuel -> (0 < fuel)%nat ->
    exists ds,
      digits fuel residual result = Some (ds ++ result) /\
      (0 < length ds)%nat /\
      (forall acc, fold_left step ds acc
                   = acc * _length ^ Z.of_nat (length ds) + residual) /\
      residual < _length ^ Z.of_nat (length ds) /\
      (length ds = 1%nat \/ _length ^ (Z.of_nat (length ds) - 1) <= residual).
Proof.
  induction fuel as [|fuel IH]; intros residual result Hr Hfuel.
  - lia.
  - cbn [digits]. rewrite fromCharCode_rixit.
    pose proof (Z.mod_pos_bound residual _length ltac:(reflexivity)) as Hm.
    pose proof (Z.div_mod residual _length ltac:(discriminate)) as Hdm.
    assert (0 <= residual / _length) as Hq by (apply Z.div_pos; [lia | reflexivity]).
    destruct (Z.eqb_spec (residual / _length) 0) as [Hz | Hnz].
    + exists [residual mod _length + _offset]. cbn [app length fold_left].
      rewrite Hz in Hdm. change (Z.of_nat 1) with 1. rewrite Z.pow_1_r.
      repeat split; lia.
    + assert (residual / _length < 2 ^ Z.of_nat fuel) as Hlt.
      { apply Z.div_lt_upper_bound; [reflexivity |].
        rewrite Nat2Z.inj_succ, Z.pow_succ_r in Hr by lia.
        unfold _length. lia. }
      assert (0 < fuel)%nat as Hpos.
      { destruct fuel; [simpl in Hlt; lia | lia]. }
      destruct (IH (residual / _length) ((residual mod _length + _offset) :: result)
                  ltac:(lia) Hpos) as (ds & Hd & Hlen & Hv & Hub & Hlb).
      exists (ds ++ [residual mod _length + _offset]).
      rewrite <- app_assoc. cbn [app]. split; [exact Hd |].
      rewrite length_app. cbn [length].
      replace (Z.of_nat (length ds + 1)) with (Z.succ (Z.of_nat (length ds))) by lia.
      rewrite Z.pow_succ_r by lia.
      repeat split.
      * lia.
      * intros acc. rewrite fold_left_app. cbn [fold_left]. rewrite Hv. lia.
      * nia.
      * right. replace (Z.succ (Z.of_nat (length ds)) - 1) with (Z.of_nat (length ds)) by lia.
        destruct Hlb as [H1 | Hlb].
        -- rewrite H1. change (Z.of_nat 1) with 1. rewrite Z.pow_1_r. nia.
        -- replace (Z.of_nat (length ds)) with (Z.succ (Z.of_nat (length ds) - 1)) by lia.
           rewrite Z.pow_succ_r; [nia | lia].
Qed.

Lemma fuel_for_enough (n : Z) :
  0 <= n -> 0 <= n < 2 ^ Z.of_nat (fuel_for n) /\ (0 < fuel_for n)%nat.
Proof.
  intros Hn. unfold fuel_for. split; [|lia].
  pose proof (Z.log2_nonneg n) as Hl.
  rewrite Nat2Z.inj_succ, Z2Nat.id by exact Hl.
  destruct (Z.eq_dec n 0) as [-> | Hnz].
  - simpl. lia.
  - pose proof (Z.log2_spec n ltac:(lia)). lia.
Qed.

(** The loop always ends, and its result is the base-[_length] numeral
    of the input, most significant glyph first. *)
Lemma unpadded_spec (n : Z) :
  0 <= n ->
  exists ds,
    unpadded n = Ok ds /\
    (0 < length ds)%nat /\
    (forall acc, fold_left step ds acc = acc * _length ^ Z.of_nat (length ds) + n) /\
    n < _length ^ Z.of_nat (length ds) /\
    (length ds = 1%nat \/ _length ^ (Z.of_nat (length ds) - 1) <= n).
Proof.
  intros Hn. destruct (fuel_for_enough n Hn) as [Hb Hf].
  destruct (digits_spec (fuel_for n) n [] Hb Hf) as (ds & Hd & Hrest).
  exists ds. unfold unpadded. rewrite Hd, app_nil_r. auto.
Qed.

Lemma natural_width_unpadded (n : Z) (ds : jsstring) :
  unpadded n = Ok ds -> natural_width n = Z.of_nat (length ds).
Proof. unfold natural_width. now intros ->. Qed.

(** The natural width is the number of base-[_length] digits. *)
Lemma natural_width_spec (n : Z) :
  0 <= n ->
  1 <= natural_width n /\
  n < _length ^ natural_width n /\
  (natural_width n = 1 \/ _length ^ (natural_width n - 1) <= n).
Proof.
  intros Hn. destruct (unpadded_spec n Hn) as (ds & Hu & Hne & _ & Hub & Hlb).
  rewrite (natural_width_unpadded n ds Hu).
  repeat split; [lia | exact Hub |].
  destruct Hlb as [-> | Hlb]; [now left | now right].
Qed.

Lemma natural_width_le (n k : Z) :
  0 <= n < _length ^ k -> 1 <= k -> natural_width n <= k.
Proof.
  intros [Hn Hlt] Hk.
  destruct (natural_width_spec n Hn) as (H1 & _ & [-> | Hlb]); [exact Hk |].
  destruct (Z_le_gt_dec (natural_width n) k) as [|Hgt]; [assumption | exfalso].
  assert (_length ^ k <= _length ^ (natural_width n - 1)).
  { apply Z.pow_le_mono_r; [reflexivity | lia]. }
  lia.
Qed.

Lemma fromNumber_int (n : Z) (padding : option Z) :
  0 <= n ->
  fromNumber (int n) padding =
    (try! result := unpadded n in
     let padding := match padding with
                    | None => 1
                    | Some p => if p =? 0 then 1 else p
                    end in
     if padding <? Z.of_nat (length result) then Throw WidthOverflow else
     if Z.of_nat (length result) >=? padding then Ok result else
     if 4294967295 <? padding - Z.of_nat (length result) + 1 then Throw RangeError else
     Ok (replicate (Z.to_nat (padding - Z.of_nat (length result))) 48 ++ result)).
Proof.
  intros Hn. unfold fromNumber, int.
  assert (Qle_bool 0 (inject_Z n) = true) as ->.
  { apply Qle_bool_iff. change 0%Q with (inject_Z 0). now rewrite <- Zle_Qle. }
  now rewrite Qfloor_Z.
Qed.

Lemma fold_zero_glyphs (k : nat) : fold_left step (replicate k 48) 0 = 0.
Proof. induction k as [|k IH]; [reflexivity | exact IH]. Qed.

Lemma Qfloor_nonneg (q : Q) : (0 <= q)%Q -> 0 <= Qfloor q.
Proof. intros Hq. change 0 with (Qfloor 0). now apply Qfloor_resp_le. Qed.

(** Only the integer part of a non-negative number is encoded. *)
Lemma fromNumber_floor (q : Q) (padding : option Z) :
  (0 <= q)%Q -> fromNumber (Finite q) padding = fromNumber (int (Qfloor q)) padding.
Proof.
  intros Hq. rewrite fromNumber_int by now apply Qfloor_nonneg.
  unfold fromNumber.
  now replace (Qle_bool 0 q) with true by (symmetry; now apply Qle_bool_iff).
Qed.

(** A non-negative integer is encoded, overflows the width or asks for
    more padding than an array can hold; nothing else. *)
Lemma fromNumber_int_outcome (n : Z) (padding : option Z) :
  0 <= n ->
  fromNumber (int n) padding = Throw WidthOverflow \/
  fromNumber (int n) padding = Throw RangeError \/
  exists text, fromNumber (int n) padding = Ok text.
Proof.
  intros Hn. destruct (unpadded_spec n Hn) as (ds & Hu & _).
  rewrite fromNumber_int, Hu by exact Hn. cbn [rbind].
  repeat match goal with |- context [if ?c then _ else _] => destruct c end; eauto.
Qed.

(** What [fromNumber] makes of the digits of a non-negative integer at
    the width it uses. *)
Lemma fromNumber_padded (n : Z) (padding : option Z) (ds : jsstring) :
  0 <= n -> unpadded n = Ok ds ->
  let width := match padding with
               | None => 1
               | Some w => if w =? 0 then 1 else w
               end in
  fromNumber (int n) padding =
    if width <? Z.of_nat (length ds) then Throw WidthOverflow
    else if 4294967295 <? width - Z.of_nat (length ds) + 1 then Throw RangeError
    else Ok (replicate (Z.to_nat (width - Z.of_nat (length ds))) 48 ++ ds).
Proof.
  intros Hn Hu width. rewrite fromNumber_int, Hu by exact Hn. cbn [rbind]. fold width.
  destruct (Z.ltb_spec width (Z.of_nat (length ds))) as [Hlt | Hge]; [reflexivity |].
  rewrite Z.geb_leb.
  destruct (Z.leb_spec width (Z.of_nat (length ds))) as [Hle | Hgt]; [|reflexivity].
  replace (width - Z.of_nat (length ds)) with 0 by lia. reflexivity.
Qed.

End RadixFacts.

(** C1, as the code has it: for every integer n in [0, K^3) and every
    width w that is at least the natural width of n and exceeds it by
    less than 2^32 - 1, fromNumber(n, w) is the natural numeral of n
    preceded by w - width zero glyphs, and toNumber decodes it back to
    n. *)
Theorem toNumber_fromNumber (n w : Z) :
  0 <= n < Radix._length ^ 3 ->
  Radix.natural_width n <= w ->
  w - Radix.natural_width n <= 4294967294 ->
  exists digits,
    Radix.unpadded n = Ok digits /\
    Radix.fromNumber (int n) (Some w)
      = Ok (replicate (Z.to_nat (w - Radix.natural_width n)) 48 ++ digits) /\
    Radix.toNumber (Some (replicate (Z.to_nat (w - Radix.natural_width n)) 48 ++ digits))
      = Ok n.
Proof.
  intros [Hn _] Hw Hpad.
  destruct (unpadded_spec n Hn) as (ds & Hu & Hlen & Hv & _).
  pose proof (natural_width_unpadded n ds Hu) as Hnw.
  exists ds. split; [exact Hu |]. split.
  - rewrite (fromNumber_padded n (Some w) ds Hn Hu).
    destruct (Z.eqb_spec w 0) as [-> | _]; [lia |].
    destruct (Z.ltb_spec w (Z.of_nat (length ds))) as [Hlt | _]; [lia |].
    destruct (Z.ltb_spec 4294967295 (w - Z.of_nat (length ds) + 1)) as [Hbig | _]; [lia |].
    now rewrite Hnw.
  - unfold Radix.toNumber. f_equal.
    rewrite fold_left_app, fold_zero_glyphs, Hv. lia.
Qed.

Lemma toNumber_fromNumber_witness :
  exists digits,
    Radix.unpadded 20480 = Ok digits /\
    Radix.fromNumber (int 20480) (Some 3)
      = Ok (replicate (Z.to_nat (3 - Radix.natural_width 20480)) 48 ++ digits) /\
    Radix.toNumber (Some (replicate (Z.to_nat (3 - Radix.natural_width 20480)) 48 ++ digits))
      = Ok 20480.
Proof.
  apply (toNumber_fromNumber 20480 3);
    [unfold Radix._length; lia | vm_compute; discriminate | vm_compute; discriminate].
Defined.

(** C1 as stated fails for a width of 2^32 or more: 5 is below K^3 and
    its natural width, 1, is below 2^32 + 1, but the padding of
    fromNumber(5, 2^32 + 1) asks for an array of 2^32 + 1 slots, and
    the call throws a RangeError instead of returning a string. *)
Lemma fromNumber_padding_range :
  0 <= 5 < Radix._length ^ 3 /\
  Radix.natural_width 5 <= 4294967297 /\
  Radix.fromNumber (int 5) (Some 4294967297) = Throw RangeError /\
  ~ (exists text,
       Radix.fromNumber (int 5) (Some 4294967297) = Ok text /\
       Radix.toNumber (Some text) = Ok 5).
Proof.
  split; [unfold Radix._length; lia |].
  split; [vm_compute; discriminate |].
  split; [reflexivity |].
  intros (text & Htext & _). discriminate Htext.
Qed.

(** C4, as the code has it: for every non-negative integer n below 2^53
    and with the width w' that fromNumber uses (w itself, except that a
    width of 0 or an omitted width counts as 1), fromNumber(n, w) fails
    with the width-overflow error whenever the natural representation of
    n needs more than w' glyphs; otherwise it returns a string of
    max(w', natural width) glyphs if w' exceeds the natural width by
    less than 2^32 - 1, and fails with a RangeError if it exceeds it by
    more. *)
Theorem fromNumber_width (n : Z) (padding : option Z) :
  safe_integer n ->
  let width := match padding with
               | None => 1
               | Some w => if w =? 0 then 1 else w
               end in
  (width < Radix.natural_width n ->
     Radix.fromNumber (int n) padding = Throw WidthOverflow) /\
  (Radix.natural_width n <= width -> width - Radix.natural_width n <= 4294967294 ->
     exists text, Radix.fromNumber (int n) padding = Ok text /\
                  Z.of_nat (length text) = Z.max width (Radix.natural_width n)) /\
  (4294967294 < width - Radix.natural_width n ->
     Radix.fromNumber (int n) padding = Throw RangeError).
Proof.
  intros [Hn _] width.
  destruct (unpadded_spec n Hn) as (ds & Hu & Hlen & _).
  pose proof (natural_width_unpadded n ds Hu) as Hnw.
  rewrite (fromNumber_padded n padding ds Hn Hu). fold width.
  rewrite Hnw. repeat split.
  - intros Hlt. now apply Z.ltb_lt in Hlt as ->.
  - intros Hle Hpad.
    destruct (Z.ltb_spec width (Z.of_nat (length ds))) as [Hlt | _]; [lia |].
    destruct (Z.ltb_spec 4294967295 (width - Z.of_nat (length ds) + 1)) as [Hbig | _]; [lia |].
    eexists. split; [reflexivity |].
    rewrite length_app, length_replicate. lia.
  - intros Hpad.
    destruct (Z.ltb_spec width (Z.of_nat (length ds))) as [Hlt | _]; [lia |].
    destruct (Z.ltb_spec 4294967295 (width - Z.of_nat (length ds) + 1)) as [_ | Hsmall];
      [reflexivity | lia].
Qed.

Lemma fromNumber_width_witness :
  Radix.fromNumber (int 104857600) (Some 2) = Throw WidthOverflow /\
  (exists text, Radix.fromNumber (int 7) (Some 2) = Ok text /\
                Z.of_nat (length text) = Z.max 2 (Radix.natural_width 7)) /\
  Radix.fromNumber (int 7) (Some 4294967296) = Throw RangeError.
Proof.
  assert (safe_integer 104857600) as Hbig by (unfold safe_integer; lia).
  assert (safe_integer 7) as Hsmall by (unfold safe_integer; lia).
  split; [|split].
  - apply (proj1 (fromNumber_width 104857600 (Some 2) Hbig)). reflexivity.
  - apply (proj1 (proj2 (fromNumber_width 7 (Some 2) Hsmall)));
      vm_compute; discriminate.
  - apply (proj2 (proj2 (fromNumber_width 7 (Some 4294967296) Hsmall))). reflexivity.
Defined.

(** C4 as stated fails for the width 0: the natural representation of 5
    needs one glyph, more than 0, and fromNumber(5, 0) returns that
    glyph instead of failing. *)
Lemma fromNumber_width_zero :
  Radix.fromNumber (int 5) (Some 0) = Ok (str "5") /\
  ~ (0 < Radix.natural_width 5 ->
     Radix.fromNumber (int 5) (Some 0) = Throw WidthOverflow).
Proof.
  split; [reflexivity |].
  intros H. specialize (H ltac:(reflexivity)). discriminate H.
Qed.

(** C5, as the code has it: fromNumber fails with the invalid-input
    error for NaN and +Infinity and with the negative-number error for
    every negative n (-Infinity included); a non-negative finite n that
    is not an integer is not rejected: its fractional part is dropped and
    floor(n) is encoded. *)
Theorem fromNumber_rejects (padding : option Z) :
  Radix.fromNumber NaN padding = Throw InvalidInput /\
  Radix.fromNumber PosInfinity padding = Throw InvalidInput /\
  Radix.fromNumber NegInfinity padding = Throw NegativeNumber /\
  (forall q, (q < 0)%Q -> Radix.fromNumber (Finite q) padding = Throw NegativeNumber) /\
  (forall q, (0 <= q)%Q ->
     Radix.fromNumber (Finite q) padding = Radix.fromNumber (int (Qfloor q)) padding /\
     Radix.fromNumber (Finite q) padding <> Throw InvalidInput /\
     Radix.fromNumber (Finite q) padding <> Throw NegativeNumber).
Proof.
  repeat split; try reflexivity.
  - intros q Hq. unfold Radix.fromNumber.
    destruct (Qle_bool 0 q) eqn:Hle; [|reflexivity].
    apply Qle_bool_iff in Hle. exfalso. exact (Qlt_not_le _ _ Hq Hle).
  - now apply fromNumber_floor.
  - rewrite fromNumber_floor by assumption.
    destruct (fromNumber_int_outcome (Qfloor q) padding (Qfloor_nonneg q H))
      as [-> | [-> | [text ->]]]; discriminate.
  - rewrite fromNumber_floor by assumption.
    destruct (fromNumber_int_outcome (Qfloor q) padding (Qfloor_nonneg q H))
      as [-> | [-> | [text ->]]]; discriminate.
Qed.

Lemma fromNumber_rejects_witness :
  Radix.fromNumber (Finite (-1 # 2)) (Some 2) = Throw NegativeNumber /\
  Radix.fromNumber (Finite (5 # 2)) (Some 2) = Radix.fromNumber (int 2) (Some 2).
Proof.
  split.
  - apply (proj1 (proj2 (proj2 (proj2 (fromNumber_rejects (Some 2)))))). reflexivity.
  - apply (proj2 (proj2 (proj2 (proj2 (fromNumber_rejects (Some 2))))) (5 # 2)).
    discriminate.
Defined.

(** C5 as stated fails for a fractional input: 3/2 is not an integer,
    and fromNumber(1.5) does not fail but returns the glyph of 1. *)
Lemma fromNumber_fraction :
  ~ (inject_Z (Qfloor (3 # 2)) == 3 # 2)%Q /\
  Radix.fromNumber (Finite (3 # 2)) None = Ok (str "1") /\
  ~ (exists e, Radix.fromNumber (Finite (3 # 2)) None = Throw e).
Proof.
  split; [discriminate |]. split; [reflexivity |].
  intros [e He]. discriminate He.
Qed.

(** ** Names *)

(** C6: after add("Radiohead") and add("Bjork" with o-umlaut, code unit
    246) on an empty table, compress() is the two names joined by a
    newline in insertion order, and decompress() of that string, on a
    table in any state, restores lookup("Radiohead") == 0 and
    lookup(1) == the second name. *)
Theorem Names_add_compress_decompress :
  let Radiohead := str "Radiohead" in
  let Bjork := str "Bj" ++ [246] ++ str "rk" in
  let '(id0, names1) := Names.add Radiohead Names.empty in
  let '(id1, names2) := Names.add Bjork names1 in
  id0 = Ok 0 /\ id1 = Ok 1 /\
  Names._compress names2 = Radiohead ++ [newline] ++ Bjork /\
  forall this : Names.t,
    let '(ok, names3) := Names._decompress (Some (Names._compress names2)) this in
    ok = Ok true /\
    Names.lookup (Str Radiohead) names3 = Ok (Num 0) /\
    Names.lookup (Num 1) names3 = Ok (Str Bjork).
Proof.
  cbv zeta. repeat split.
Qed.

(** ** Tracks *)

Section TracksFacts.

Import Tracks.

(** One iteration of the loop of [_decompress] on three chunks. *)
Lemma decompress_loop_step (c0 c1 c2 : jsstring) (array : list jsstring) (this : t) :
  exists n0 n1 n2,
    decompressNumber (Some c0) = Ok n0 /\
    decompressNumber (Some c1) = Ok n1 /\
    decompressNumber (Some c2) = Ok n2 /\
    decompress_loop (c0 :: c1 :: c2 :: array) this =
    decompress_loop array
      {| string := <[join comma (map decimal [n0; n1; n2])
                      := Z.of_nat (length (number this))]> (string this);
         number := number this ++ [[n0; n1; n2]] |}.
Proof. do 3 eexists. repeat split; reflexivity. Qed.

(** Whole groups of three chunks give one track each. *)
Lemma decompress_loop_groups (k : nat) :
  forall (array : list jsstring) (this : t),
    length array = (3 * k)%nat ->
    exists this',
      decompress_loop array this = (Ok tt, this') /\
      length (number this') = (length (number this) + k)%nat.
Proof.
  induction k as [|k IH]; intros array this Hlen.
  - destruct array; [|discriminate]. exists this. split; [reflexivity | lia].
  - destruct array as [|c0 [|c1 [|c2 array]]]; try (cbn in Hlen; lia).
    destruct (decompress_loop_step c0 c1 c2 array this) as (n0 & n1 & n2 & _ & _ & _ & ->).
    edestruct (IH array) as (this' & -> & Hn); [cbn in Hlen; lia |].
    exists this'. split; [reflexivity |].
    rewrite Hn. cbn [number]. rewrite length_app. cbn [length]. lia.
Qed.

(** A last group of one or two chunks makes [toNumber] read [undefined]. *)
Lemma decompress_loop_partial (k : nat) :
  forall (array : list jsstring) (this : t),
    length array = (3 * k + 1)%nat \/ length array = (3 * k + 2)%nat ->
    exists this', decompress_loop array this = (Throw TypeError, this').
Proof.
  induction k as [|k IH]; intros array this Hlen.
  - destruct array as [|c0 [|c1 [|c2 array]]]; try (cbn in Hlen; lia);
      eexists; reflexivity.
  - destruct array as [|c0 [|c1 [|c2 array]]]; try (cbn in Hlen; lia).
    destruct (decompress_loop_step c0 c1 c2 array this) as (n0 & n1 & n2 & _ & _ & _ & ->).
    apply IH. cbn in Hlen. lia.
Qed.

(** What [_decompress] returns, for every text: [true] only when the
    text has no 2-glyph chunk at all, [false] for any positive number
    of whole groups, and a TypeError otherwise. *)
Lemma decompress_outcome (text : option jsstring) (this : t) :
  let array := match text with None => [] | Some text => match_dot2 text end in
  forall k : nat,
    (length array = (3 * k)%nat ->
       fst (_decompress text this) = Ok (bool_decide (k = 0%nat)) /\
       length (number (snd (_decompress text this))) = k) /\
    (length array = (3 * k + 1)%nat \/ length array = (3 * k + 2)%nat ->
       fst (_decompress text this) = Throw TypeError).
Proof.
  intros array k. unfold _decompress. fold array. split.
  - intros Hlen.
    destruct (decompress_loop_groups k array {| string := ∅; number := [] |} Hlen)
      as (this' & Hloop & Hn).
    unfold bind, modify, get, ret. rewrite Hloop. cbn [fst snd].
    cbn [number length] in Hn. split; [|lia].
    f_equal. rewrite Hn, Hlen. cbn [Nat.add].
    apply bool_decide_ext. lia.
  - intros Hlen.
    destruct (decompress_loop_partial k array {| string := ∅; number := [] |} Hlen)
      as (this' & Hloop).
    unfold bind, modify, get, ret. now rewrite Hloop.
Qed.

End TracksFacts.


(** C10, as the code has it: for every input string, addString throws
    the ReferenceError of the undeclared [i] and leaves the number index
    untouched.  For every string but [__proto__] the key is by then in
    the string index, mapped to the id the call would have returned, so
    that the key resolves to an id at which the number index holds
    nothing; for [__proto__] the assignment stores nothing and the table
    is as it was. *)
Theorem addString_throws (track : jsstring) (this : Tracks.t) :
  exists this',
    Tracks.addString track this = (Throw (ReferenceError "i"), this') /\
    Tracks.number this' = Tracks.number this /\
    (track <> proto ->
       Tracks.string this'
         = <[track := Z.of_nat (length (Tracks.number this))]> (Tracks.string this) /\
       exists id, Tracks.string this' !! track = Some id /\
                  Tracks.number this' !! Z.to_nat id = None) /\
    (track = proto -> Tracks.string this' = Tracks.string this).
Proof.
  exists {| Tracks.string := assign track (Z.of_nat (length (Tracks.number this)))
                               (Tracks.string this);
            Tracks.number := Tracks.number this |}.
  split; [reflexivity |]. cbn [Tracks.string Tracks.number].
  split; [reflexivity |]. unfold assign. split.
  - intros Hkey. rewrite bool_decide_eq_false_2 by exact Hkey.
    split; [reflexivity |].
    exists (Z.of_nat (length (Tracks.number this))). split.
    + apply lookup_insert_eq.
    + rewrite Nat2Z.id. now apply lookup_ge_None.
  - intros Hkey. now rewrite bool_decide_eq_true_2 by exact Hkey.
Qed.

Lemma addString_throws_witness :
  exists this',
    Tracks.addString (str "1,2,3") Tracks.empty = (Throw (ReferenceError "i"), this') /\
    Tracks.number this' = [] /\
    Tracks.string this' = <[str "1,2,3" := 0]> ∅.
Proof.
  destruct (addString_throws (str "1,2,3") Tracks.empty) as (this' & Hthrow & Hnumber & Hkey & _).
  exists this'. split; [exact Hthrow |]. split; [exact Hnumber |].
  exact (proj1 (Hkey ltac:(discriminate))).
Defined.

(** C10 as stated fails for the string [__proto__]: addString throws,
    but nothing has been inserted into the string index, and the two
    indexes of the table are as they were. *)
Lemma addString_proto_stores_nothing :
  Tracks.addString (str "__proto__") Tracks.empty
    = (Throw (ReferenceError "i"), Tracks.empty) /\
  ~ (exists id,
       Tracks.string (snd (Tracks.addString (str "__proto__") Tracks.empty))
         !! str "__proto__" = Some id).
Proof.
  split; [reflexivity |].
  intros [id Hid]. vm_compute in Hid. discriminate Hid.
Qed.

(** C3: on the six glyphs that compress() writes for the single track
    [0, 1, 2], decompress rebuilds both indexes (one id, one group of
    three chunks) and returns false, because it compares the number of
    ids with the number of 2-glyph chunks. *)
Theorem Tracks_decompress_one_track (this : Tracks.t) :
  Tracks._compress (snd (Tracks.add [0; 1; 2] Tracks.empty)) = Ok (str "000102") /\
  match_dot2 (str "000102") = [str "00"; str "01"; str "02"] /\
  let '(ok, this') := Tracks._decompress (Some (str "000102")) this in
  ok = Ok false /\
  Tracks.number this' = [[0; 1; 2]] /\
  Tracks.string this' !! str "0,1,2" = Some 0.
Proof. repeat split. Qed.

(** ** Images *)

(** C9: after add(0, 64, "ab12cd", "jpg"), whatever the Names table and
    the table's two indexes held before, lookup(0) on the artist table
    is the base URL followed by "64", "/ab12cd" and ".jpg", and on the
    album table the same with "64s" in place of "64". *)
Theorem Images_lookup_size_labels
    (names : Names.t) (string : gmap jsstring Images.obj) (number : jsarray Images.obj) :
  let artist := {| Images.key := Images.key ArtistImages;
                   Images._sizes := Images._sizes ArtistImages;
                   Images.string := string; Images.number := number |} in
  let album := {| Images.key := Images.key AlbumImages;
                  Images._sizes := Images._sizes AlbumImages;
                  Images.string := string; Images.number := number |} in
  let add := Images.add names (Num 0) (Num 64) (Str (str "ab12cd")) (Str (str "jpg")) in
  fst (add artist) = Ok (Num 0) /\
  Images.lookup (Num 0) (snd (add artist))
    = Ok (Images._url ++ str "64" ++ str "/ab12cd" ++ str ".jpg") /\
  fst (add album) = Ok (Num 0) /\
  Images.lookup (Num 0) (snd (add album))
    = Ok (Images._url ++ str "64s" ++ str "/ab12cd" ++ str ".jpg").
Proof.
  destruct names as [names_string [|first names_number]];
    destruct number as [[|slot elems] props]; repeat split.
Qed.

(** C7, as the code has it: for a name string that the NameTable does
    not hold, add raises no unresolvable-reference error.  When the
    name, the type and the size are not among the names that every
    object inherits: with a recognised type and size, add returns
    undefined, stores the record in the name index under that name, and
    creates no entry at any numeric index (the record lands in the
    array's property "undefined"); it fails, storing nothing, only when
    the type or the size is not recognised. *)
Theorem Images_add_unknown_name
    (names : Names.t) (name : jsstring) (size hash type : value) (this : Images.t) :
  Names.string names !! name = None ->
  name ∉ Object_prototype ->
  to_string type ∉ Object_prototype ->
  to_string size ∉ Object_prototype ->
  match property Images._compressTypes (to_string type),
        property Images._compressSizes (to_string size) with
  | None, _ =>
      Images.add names (Str name) size hash type this = (Throw TypeNotRecognized, this)
  | Some _, None =>
      Images.add names (Str name) size hash type this = (Throw SizeNotRecognized, this)
  | Some ctype, Some csize =>
      let obj := {| Images.id := Undefined; Images.size := csize;
                    Images.hash := hash; Images.type := ctype |} in
      Images.add names (Str name) size hash type this =
        (Ok Undefined,
         {| Images.key := Images.key this;
            Images._sizes := Images._sizes this;
            Images.string := <[name := obj]> (Images.string this);
            Images.number :=
              {| elems := elems (Images.number this);
                 props := <[str "undefined" := obj]> (props (Images.number this)) |} |})
  end.
Proof.
  intros Hname _ _ _. unfold Images.add, bind, lift, Names.lookup. rewrite Hname. cbn [rbind].
  destruct (property Images._compressTypes (to_string type)) as [ctype|]; [|reflexivity].
  destruct (property Images._compressSizes (to_string size)) as [csize|]; reflexivity.
Qed.

Lemma Images_add_unknown_name_witness :
  let obj := {| Images.id := Undefined; Images.size := 2;
                Images.hash := Str (str "ab12cd"); Images.type := 20 |} in
  Images.add Names.empty (Str (str "Radiohead")) (Num 64) (Str (str "ab12cd"))
             (Str (str "jpg")) ArtistImages =
    (Ok Undefined,
     {| Images.key := Images.key ArtistImages;
        Images._sizes := Images._sizes ArtistImages;
        Images.string := <[str "Radiohead" := obj]> (Images.string ArtistImages);
        Images.number :=
          {| elems := elems (Images.number ArtistImages);
             props := <[str "undefined" := obj]> (props (Images.number ArtistImages)) |} |}).
Proof.
  apply (Images_add_unknown_name Names.empty (str "Radiohead") (Num 64)
           (Str (str "ab12cd")) (Str (str "jpg")) ArtistImages eq_refl);
    unfold Object_prototype;
    repeat (apply not_elem_of_cons; split; [discriminate |]); apply not_elem_of_nil.
Defined.

(** C7 as stated fails on an empty NameTable: add("Radiohead", 64,
    "ab12cd", "jpg") does not fail, and the name index then holds a
    record for "Radiohead". *)
Lemma Images_add_unknown_name_stores :
  let r := Images.add Names.empty (Str (str "Radiohead")) (Num 64) (Str (str "ab12cd"))
                      (Str (str "jpg")) ArtistImages in
  Names.string Names.empty !! str "Radiohead" = None /\
  fst r = Ok Undefined /\
  Images.string (snd r) !! str "Radiohead"
    = Some {| Images.id := Undefined; Images.size := 2;
              Images.hash := Str (str "ab12cd"); Images.type := 20 |} /\
  ~ ((exists e, fst r = Throw e) /\ Images.string (snd r) !! str "Radiohead" = None).
Proof.
  cbv zeta. repeat split.
  intros [[e He] _]. discriminate He.
Qed.

(** ** User *)

(** C2: decompress() throws the ReferenceError of the undeclared [test]
    on every text and leaves the receiver as it was; so, after compress()
    of the record with stats {2020: {3: {5: 2}}} and loved [7, 9],
    which succeeds, decompress() of the result on a fresh record leaves
    it with empty stats and an empty loved list. *)
Theorem User_decompress_throws :
  (forall text this,
     User._decompress text this = (Throw (ReferenceError "test"), this)) /\
  exists text,
    User._compress example_user = Ok text /\
    User.stats (snd (User._decompress (Some text) (User.new (str "nick"))))
      <> User.stats example_user /\
    User.loved (snd (User._decompress (Some text) (User.new (str "nick"))))
      <> User.loved example_user.
Proof.
  split; [reflexivity |].
  eexists. split; [reflexivity |]. split; discriminate.
Qed.

(** C8: for loved = [7, 9] the first line of compress() is "79", the
    decimal forms of the ids joined as they are: two glyphs, where the
    2-glyph radix codes of 7 and 9 make the four glyphs "0709". *)
Theorem User_compress_loved_line :
  exists text,
    User._compress example_user = Ok text /\
    head (split newline text) = Some (str "79") /\
    compressNumber (int 7) (Some 2) = Ok (str "07") /\
    compressNumber (int 9) (Some 2) = Ok (str "09").
Proof. eexists. repeat split. Qed.

Section UserFacts.

Import User.

Lemma compress_months_extends (months : obj (obj Z)) :
  forall array array',
    compress_months months array = Ok array' -> exists more, array' = array ++ more.
Proof.
  induction months as [|[month tracks] months IH]; intros array array' H;
    cbn [compress_months] in H.
  - injection H as <-. exists []. now rewrite app_nil_r.
  - destruct (compressNumber (int month) None) as [code|]; [|discriminate].
    cbn [rbind] in H. destruct (compress_tracks tracks code) as [text|]; [|discriminate].
    cbn [rbind] in H. apply IH in H as [more ->]. exists ([text] ++ more). now rewrite app_assoc.
Qed.

Lemma compress_years_extends (years : obj (obj (obj Z))) :
  forall array array',
    compress_years years array = Ok array' -> exists more, array' = array ++ more.
Proof.
  induction years as [|[year months] years IH]; intros array array' H;
    cbn [compress_years] in H.
  - injection H as <-. exists []. now rewrite app_nil_r.
  - destruct (compressNumber (int year) None) as [code|]; [|discriminate].
    cbn [rbind] in H.
    destruct (compress_months months (array ++ [code])) as [array1|] eqn:Hm; [|discriminate].
    cbn [rbind] in H. apply compress_months_extends in Hm as [more1 ->].
    apply IH in H as [more ->]. exists ([code] ++ more1 ++ more).
    now rewrite !app_assoc.
Qed.

Lemma uint_no_newline (d : Decimal.uint) :
  Forall (fun c => c <> newline) (str (NilEmpty.string_of_uint d)).
Proof.
  unfold newline. induction d; cbn; constructor;
    (exact IHd || (intros Hc; vm_compute in Hc; discriminate Hc)).
Qed.

(** The decimal form of an integer has no newline in it. *)
Lemma decimal_no_newline (n : Z) : Forall (fun c => c <> newline) (decimal n).
Proof.
  pose proof uint_no_newline as Huint.
  unfold decimal, NilZero.string_of_int, NilZero.string_of_uint, newline in *.
  destruct (Z.to_int n) as [d | d].
  - destruct d; try apply Huint. cbn. constructor; [intros Hc; vm_compute in Hc; discriminate Hc | constructor].
  - change (str (String "-" ?s)) with (45 :: str s). cbn [str].
    constructor; [intros Hc; vm_compute in Hc; discriminate Hc |].
    destruct d; try apply Huint. cbn. constructor; [intros Hc; vm_compute in Hc; discriminate Hc | constructor].
Qed.

Lemma split_first_line (line : jsstring) (rest : list jsstring) :
  Forall (fun c => c <> newline) line ->
  head (split newline (join [newline] (line :: rest))) = Some line.
Proof.
  intros Hline.
  assert (forall tail : jsstring,
            head (split newline (line ++ match rest with [] => [] | _ => newline :: tail end))
            = Some line) as Hgen.
  { intros tail. induction Hline as [|c line Hc _ IH]; cbn.
    - destruct rest; reflexivity.
    - destruct (Z.eqb_spec c newline) as [-> | _]; [contradiction |].
      destruct (split newline _) as [|piece pieces]; [discriminate IH |].
      cbn in IH |- *. now injection IH as ->. }
  destruct rest as [|next rest].
  - cbn [join]. specialize (Hgen []). now rewrite app_nil_r in *.
  - exact (Hgen (join [newline] (next :: rest))).
Qed.

(** Whenever [_compress] succeeds, the first line of its result is the
    decimal forms of the loved ids, one after the other. *)
Lemma compress_first_line (this : t) (text : jsstring) :
  _compress this = Ok text ->
  head (split newline text) = Some (concat (map decimal (loved this))).
Proof.
  unfold _compress. intros H.
  destruct (compress_years (stats this) _) as [array|] eqn:Hy; [|discriminate].
  cbn in H. injection H as <-.
  apply compress_years_extends in Hy as [more ->]. cbn [app].
  assert (join blank (map decimal (loved this)) = concat (map decimal (loved this))) as ->.
  { induction (loved this) as [|id [|id' ids] IH]; cbn; [reflexivity | now rewrite app_nil_r |].
    cbn in IH. now rewrite IH. }
  apply split_first_line. apply Forall_concat, Forall_map.
  apply Forall_forall. intros id _. apply decimal_no_newline.
Qed.

End UserFacts.

(** * Further properties *)

(** ** Radix: capacity, alphabet and decoding *)

Section RadixMore.

Import Radix.

(** The natural width is at most [w] exactly for the integers below
    [_length ^ w]. *)
Lemma natural_width_le_iff (n w : Z) :
  0 <= n -> 1 <= w -> (natural_width n <= w <-> n < _length ^ w).
Proof.
  intros Hn Hw. split.
  - intros Hle. destruct (natural_width_spec n Hn) as (H1 & Hub & _).
    assert (_length ^ natural_width n <= _length ^ w).
    { apply Z.pow_le_mono_r; [reflexivity | lia]. }
    lia.
  - intros Hlt. apply natural_width_le; lia.
Qed.

Lemma digits_range (fuel : nat) :
  forall residual result out,
    digits fuel residual result = Some out ->
    Forall (fun c => _offset <= c < _offset + _length) result ->
    Forall (fun c => _offset <= c < _offset + _length) out.
Proof.
  induction fuel as [|fuel IH]; intros residual result out Hd Hres; [discriminate |].
  cbn [digits] in Hd. rewrite fromCharCode_rixit in Hd.
  pose proof (Z.mod_pos_bound residual _length ltac:(reflexivity)) as Hm.
  assert (Forall (fun c => _offset <= c < _offset + _length)
            ((residual mod _length + _offset) :: result)) as Hres'.
  { constructor; [lia | exact Hres]. }
  destruct (residual / _length =? 0).
  - now injection Hd as <-.
  - exact (IH _ _ _ Hd Hres').
Qed.

End RadixMore.

(** X1: a field of w glyphs, for w from 1 to 2^32 - 1, holds exactly
    the integers from 0 to 2^53 - 1 that are below K^w: fromNumber(n, w)
    returns w glyphs for them and fails with the width-overflow error
    for every larger integer below 2^53. *)
Theorem fromNumber_capacity (n w : Z) :
  safe_integer n -> 1 <= w <= 4294967295 ->
  (n < Radix._length ^ w ->
     exists text, Radix.fromNumber (int n) (Some w) = Ok text /\
                  Z.of_nat (length text) = w) /\
  (Radix._length ^ w <= n ->
     Radix.fromNumber (int n) (Some w) = Throw WidthOverflow).
Proof.
  intros [Hn _] [Hw Hmax].
  destruct (unpadded_spec n Hn) as (ds & Hu & Hlen & _).
  pose proof (natural_width_unpadded n ds Hu) as Hnw.
  pose proof (natural_width_le_iff n w Hn Hw) as Hiff.
  rewrite (fromNumber_padded n (Some w) ds Hn Hu).
  destruct (Z.eqb_spec w 0) as [-> | _]; [lia |].
  split; intros Hcmp.
  - destruct (Z.ltb_spec w (Z.of_nat (length ds))) as [Hlt | Hge]; [lia |].
    destruct (Z.ltb_spec 4294967295 (w - Z.of_nat (length ds) + 1)) as [Hbig | _]; [lia |].
    eexists. split; [reflexivity |].
    rewrite length_app, length_replicate. lia.
  - destruct (Z.ltb_spec w (Z.of_nat (length ds))) as [Hlt | Hge]; [reflexivity | lia].
Qed.

Lemma fromNumber_capacity_witness :
  (exists text, Radix.fromNumber (int 104857599) (Some 2) = Ok text /\
                Z.of_nat (length text) = 2) /\
  Radix.fromNumber (int 104857600) (Some 2) = Throw WidthOverflow.
Proof.
  assert (safe_integer 104857599) as Hfits by (unfold safe_integer; lia).
  assert (safe_integer 104857600) as Hover by (unfold safe_integer; lia).
  split.
  - apply (proj1 (fromNumber_capacity 104857599 2 Hfits ltac:(lia))). reflexivity.
  - apply (proj2 (fromNumber_capacity 104857600 2 Hover ltac:(lia))).
    vm_compute. discriminate.
Defined.

(** X2: every glyph that fromNumber returns has a code from 48 to
    48 + K - 1, whatever the number and the width; so a code never holds
    the newline or the comma that the formats use as delimiters. *)
Theorem fromNumber_alphabet (x : jsnumber) (padding : option Z) (text : jsstring) :
  Radix.fromNumber x padding = Ok text ->
  Forall (fun c => 48 <= c < 48 + 10240 /\ c <> 10 /\ c <> 44) text.
Proof.
  intros H.
  assert (Forall (fun c => Radix._offset <= c < Radix._offset + Radix._length) text) as Hr.
  { unfold Radix.fromNumber in H. destruct x as [| | |q]; try discriminate.
    destruct (negb (Qle_bool 0 q)); [discriminate |].
    unfold Radix.unpadded in H.
    destruct (Radix.digits _ _ _) as [ds|] eqn:Hd; [|discriminate].
    cbn [rbind] in H.
    apply digits_range in Hd; [|constructor].
    destruct (_ <? _); [discriminate |].
    destruct (_ >=? _); [now injection H as <- |].
    destruct (_ <? _); [discriminate |].
    injection H as <-.
    apply Forall_app. split; [|exact Hd].
    apply Forall_replicate. unfold Radix._offset, Radix._length. lia. }
  eapply Forall_impl; [exact Hr |].
  intros c Hc. cbv beta in Hc. unfold Radix._offset, Radix._length in Hc. lia.
Qed.

Lemma fromNumber_alphabet_witness :
  Forall (fun c => 48 <= c < 48 + 10240 /\ c <> 10 /\ c <> 44) (str "07").
Proof. exact (fromNumber_alphabet (int 7) (Some 2) (str "07") eq_refl). Defined.

(** X3: whenever fromNumber returns a string for a finite number x
    with floor(x) <= 2^53 - 48, for any width or none, toNumber of that
    string is floor(x).  (toNumber adds a glyph's code before it takes
    the offset 48 away, and a sum above 2^53 is rounded.) *)
Theorem toNumber_fromNumber_floor (q : Q) (padding : option Z) (text : jsstring) :
  Qfloor q <= 2 ^ 53 - 48 ->
  Radix.fromNumber (Finite q) padding = Ok text ->
  Radix.toNumber (Some text) = Ok (Qfloor q).
Proof.
  intros _ H.
  assert (0 <= q)%Q as Hq.
  { apply Qle_bool_iff. unfold Radix.fromNumber in H.
    destruct (Qle_bool 0 q); [reflexivity | discriminate]. }
  rewrite fromNumber_floor in H by exact Hq.
  pose proof (Qfloor_nonneg q Hq) as Hn.
  destruct (unpadded_spec (Qfloor q) Hn) as (ds & Hu & _ & Hv & _).
  rewrite (fromNumber_padded (Qfloor q) padding ds Hn Hu) in H.
  destruct (_ <? _); [discriminate |].
  destruct (_ <? _); [discriminate |]. injection H as <-.
  unfold Radix.toNumber. f_equal.
  rewrite fold_left_app, fold_zero_glyphs, Hv. lia.
Qed.

Lemma toNumber_fromNumber_floor_witness :
  Radix.toNumber (Some (str "02")) = Ok (Qfloor (5 # 2)).
Proof.
  apply (toNumber_fromNumber_floor (5 # 2) (Some 2) (str "02")); [|reflexivity].
  vm_compute. discriminate.
Defined.

Section NamesMore.

Import Names.

Lemma add_all_number (names : list jsstring) :
  forall this, number (add_all names this) = number this ++ names.
Proof.
  induction names as [|name names IH]; intros this; cbn.
  - now rewrite app_nil_r.
  - unfold add_all in IH. rewrite IH. cbn. now rewrite <- app_assoc.
Qed.

Lemma decompress_loop_add_all (array : list jsstring) :
  forall this, decompress_loop array this = add_all array this.
Proof.
  induction array as [|item array IH]; intros this; [reflexivity |].
  cbn [decompress_loop]. rewrite IH. reflexivity.
Qed.

Lemma split_no_separator (sep : Z) (text : jsstring) :
  sep ∉ text -> split sep text = [text].
Proof.
  induction text as [|c text IH]; intros Hsep; [reflexivity |].
  cbn [split]. apply not_elem_of_cons in Hsep as [Hc Htext].
  destruct (Z.eqb_spec c sep) as [-> | _]; [contradiction |].
  now rewrite IH.
Qed.

Lemma split_app_separator (sep : Z) (line rest : jsstring) :
  sep ∉ line -> split sep (line ++ sep :: rest) = line :: split sep rest.
Proof.
  induction line as [|c line IH]; intros Hsep; cbn [app split].
  - now rewrite Z.eqb_refl.
  - apply not_elem_of_cons in Hsep as [Hc Hline].
    destruct (Z.eqb_spec c sep) as [-> | _]; [contradiction |].
    now rewrite IH.
Qed.

(** [split] undoes [join] on a non-empty array of strings free of the
    separator. *)
Lemma split_join (sep : Z) (array : list jsstring) :
  array <> [] -> Forall (fun item => sep ∉ item) array ->
  split sep (join [sep] array) = array.
Proof.
  induction array as [|item [|next array] IH]; intros Hne Hsep; [contradiction | |].
  - apply split_no_separator. now inversion Hsep.
  - change (join [sep] (item :: next :: array))
      with (item ++ sep :: join [sep] (next :: array)).
    inversion Hsep as [|? ? Hitem Hrest]; subst.
    rewrite split_app_separator by exact Hitem.
    rewrite IH; [reflexivity | discriminate | exact Hrest].
Qed.

Lemma join_nil (sep : Z) (array : list jsstring) :
  join [sep] array = [] -> array = [] \/ array = [[]].
Proof.
  destruct array as [|item [|next array]]; [now left | cbn; intros ->; now right |].
  change (join [sep] (item :: next :: array))
    with (item ++ sep :: join [sep] (next :: array)).
  intros H. destruct item; discriminate H.
Qed.

Lemma add_all_string_missing (names : list jsstring) :
  forall this (name : jsstring),
    name ∉ names -> string (add_all names this) !! name = string this !! name.
Proof.
  induction names as [|other names IH]; intros this name Hnot; [reflexivity |].
  apply not_elem_of_cons in Hnot as [Hne Hnot]. cbn.
  unfold add_all in IH. rewrite IH by exact Hnot. cbn. unfold assign.
  case_bool_decide; [reflexivity |].
  now rewrite lookup_insert_ne by congruence.
Qed.

Lemma add_all_string_last (names : list jsstring) :
  forall this (i : nat) (name : jsstring),
    names !! i = Some name -> name ∉ drop (S i) names -> name <> proto ->
    string (add_all names this) !! name = Some (Z.of_nat (length (number this) + i)).
Proof.
  induction names as [|first names IH]; intros this i name Hi Hlast Hkey; [discriminate |].
  destruct i as [|i]; cbn in Hi.
  - injection Hi as ->. cbn [drop] in Hlast. cbn.
    pose proof (add_all_string_missing names) as Hkeep.
    unfold add_all in Hkeep. rewrite Hkeep by exact Hlast. cbn. unfold assign.
    rewrite bool_decide_eq_false_2 by exact Hkey.
    rewrite lookup_insert_eq. f_equal. lia.
  - cbn [drop] in Hlast. cbn. unfold add_all in IH.
    rewrite (IH _ i name Hi Hlast Hkey). cbn. rewrite length_app. cbn. f_equal. lia.
Qed.

End NamesMore.

(** X4: add(name) returns the number of names stored so far; afterwards
    that id looks up the name and, unless the name is [__proto__], the
    name looks up that id, while every earlier id and every other name
    look up what they did before. *)
Theorem Names_add_lookup (name : jsstring) (this : Names.t) :
  let id := Z.of_nat (length (Names.number this)) in
  let this' := snd (Names.add name this) in
  fst (Names.add name this) = Ok id /\
  Names.lookup (Num id) this' = Ok (Str name) /\
  (name <> proto -> Names.lookup (Str name) this' = Ok (Num id)) /\
  (forall i, i < id -> Names.lookup (Num i) this' = Names.lookup (Num i) this) /\
  (forall other, other <> name ->
     Names.lookup (Str other) this' = Names.lookup (Str other) this).
Proof.
  cbv zeta. cbn [Names.add fst snd Names.lookup Names.number Names.string].
  unfold assign. repeat split.
  - destruct (Z.ltb_spec (Z.of_nat (length (Names.number this))) 0) as [Hneg | _]; [lia |].
    rewrite Nat2Z.id, lookup_app_r, Nat.sub_diag by lia. reflexivity.
  - intros Hkey. rewrite bool_decide_eq_false_2 by exact Hkey.
    now rewrite lookup_insert_eq.
  - intros i Hi. destruct (Z.ltb_spec i 0) as [_ | Hpos]; [reflexivity |].
    rewrite lookup_app_l by lia. reflexivity.
  - intros other Hne. case_bool_decide; [reflexivity |].
    now rewrite lookup_insert_ne by congruence.
Qed.

Lemma Names_add_lookup_witness :
  Names.lookup (Str (str "b")) (snd (Names.add (str "b") (snd (Names.add (str "a") Names.empty))))
  = Ok (Num 1) /\
  Names.lookup (Num 0) (snd (Names.add (str "b") (snd (Names.add (str "a") Names.empty))))
  = Names.lookup (Num 0) (snd (Names.add (str "a") Names.empty)) /\
  Names.lookup (Str (str "a")) (snd (Names.add (str "b") (snd (Names.add (str "a") Names.empty))))
  = Names.lookup (Str (str "a")) (snd (Names.add (str "a") Names.empty)).
Proof.
  pose proof (Names_add_lookup (str "b") (snd (Names.add (str "a") Names.empty)))
    as (_ & _ & Hkey & Hid & Hname).
  split; [|split].
  - apply Hkey. discriminate.
  - apply Hid. reflexivity.
  - apply Hname. discriminate.
Defined.

(** X5: in a table filled by add from empty, an id looks up the name
    added at that position; a name other than [__proto__] looks up the
    position of its last addition (a name added again shadows its
    earlier ids), and a name never added that no object inherits looks
    up undefined. *)
Theorem Names_lookup_add_all (names : list jsstring) :
  let this := Names.add_all names Names.empty in
  (forall (i : nat) name, names !! i = Some name ->
     Names.lookup (Num (Z.of_nat i)) this = Ok (Str name)) /\
  (forall (i : nat) name, names !! i = Some name -> name ∉ drop (S i) names ->
     name <> proto ->
     Names.lookup (Str name) this = Ok (Num (Z.of_nat i))) /\
  (forall name, name ∉ names -> name ∉ Object_prototype ->
     Names.lookup (Str name) this = Ok Undefined).
Proof.
  cbv zeta. unfold Names.lookup. repeat split.
  - intros i name Hi. rewrite add_all_number. cbn [Names.number Names.empty app].
    destruct (Z.ltb_spec (Z.of_nat i) 0) as [Hneg | _]; [lia |].
    now rewrite Nat2Z.id, Hi.
  - intros i name Hi Hlast Hkey.
    now rewrite (add_all_string_last names Names.empty i name Hi Hlast Hkey).
  - intros name Hnot _. now rewrite add_all_string_missing by exact Hnot.
Qed.

Lemma Names_lookup_add_all_witness :
  Names.lookup (Str (str "a")) (Names.add_all [str "a"; str "b"; str "a"] Names.empty)
  = Ok (Num 2) /\
  Names.lookup (Num 0) (Names.add_all [str "a"; str "b"; str "a"] Names.empty)
  = Ok (Str (str "a")) /\
  Names.lookup (Str (str "c")) (Names.add_all [str "a"; str "b"; str "a"] Names.empty)
  = Ok Undefined.
Proof.
  pose proof (Names_lookup_add_all [str "a"; str "b"; str "a"]) as (Hid & Hname & Hnone).
  split; [|split].
  - apply (Hname 2%nat); [reflexivity | cbn; apply not_elem_of_nil | discriminate].
  - apply (Hid 0%nat). reflexivity.
  - apply Hnone.
    + repeat (apply not_elem_of_cons; split; [discriminate |]). apply not_elem_of_nil.
    + unfold Object_prototype.
      repeat (apply not_elem_of_cons; split; [discriminate |]). apply not_elem_of_nil.
Defined.

(** X6: decompress never reports a failure: for every text it returns
    true, and the ids of the rebuilt table follow the lines of the text
    (none for an empty or missing text). *)
Theorem Names_decompress_true (text : option jsstring) (this : Names.t) :
  fst (Names._decompress text this) = Ok true /\
  Names.number (snd (Names._decompress text this)) =
    match text with
    | None | Some [] => []
    | Some text => split newline text
    end.
Proof.
  unfold Names._decompress. cbn [fst snd].
  rewrite decompress_loop_add_all, add_all_number. cbn [Names.number app].
  split; [|reflexivity]. f_equal. now apply bool_decide_eq_true.
Qed.

(** [_decompress] undoes [_compress] on a table filled by [add]. *)
Lemma decompress_compress_add_all (names : list jsstring) (this : Names.t) :
  names <> [[]] ->
  Forall (fun name => newline ∉ name) names ->
  Names._decompress (Some (Names._compress (Names.add_all names Names.empty))) this
  = (Ok true, Names.add_all names Names.empty).
Proof.
  intros Hne Hnl. unfold Names._decompress, Names._compress.
  rewrite (add_all_number names Names.empty). cbn [Names.number Names.empty app].
  destruct (join [newline] names) as [|c text] eqn:Hjoin.
  - apply join_nil in Hjoin as [-> | ->]; [reflexivity | contradiction].
  - rewrite <- Hjoin, split_join; [|intros ->; discriminate Hjoin | exact Hnl].
    rewrite decompress_loop_add_all. f_equal. f_equal.
    apply bool_decide_eq_true.
    now rewrite (add_all_number names {| Names.string := ∅; Names.number := [] |}).
Qed.

(** X7: for names without a newline, added to an empty table,
    decompress(compress()) rebuilds exactly the table, on a receiver in
    any state; the one exception is the table whose only name is the
    empty string, whose text is empty. *)
Theorem Names_decompress_compress (names : list jsstring) (this : Names.t) :
  names <> [[]] ->
  Forall (fun name => newline ∉ name) names ->
  Names._decompress (Some (Names._compress (Names.add_all names Names.empty))) this
  = (Ok true, Names.add_all names Names.empty).
Proof. exact (decompress_compress_add_all names this). Qed.

Lemma Names_decompress_compress_witness :
  Names._decompress
    (Some (Names._compress (Names.add_all [str "Fall Out Boy"; str "Thriller"] Names.empty)))
    Names.empty
  = (Ok true, Names.add_all [str "Fall Out Boy"; str "Thriller"] Names.empty).
Proof.
  apply Names_decompress_compress; [discriminate |].
  repeat constructor; unfold newline; cbn;
    repeat (apply not_elem_of_cons; split; [discriminate |]); apply not_elem_of_nil.
Defined.

(** ** Tracks: lookups, capacity and the round trip *)

Section TracksMore.

Import Radix.

Local Abbreviation step := (fun result e => (result * _length) + e - _offset).

(** The two glyphs of an id below [_length ^ 2]. *)
Lemma fromNumber_two_glyphs (id : Z) :
  0 <= id < _length ^ 2 ->
  fromNumber (int id) (Some 2) = Ok [id / _length + _offset; id mod _length + _offset].
Proof.
  intros [Hn Hlt].
  destruct (unpadded_spec id Hn) as (ds & Hu & Hlen & Hv & Hub & Hlb).
  assert (natural_width id <= 2) as Hw by (apply natural_width_le; lia).
  rewrite (natural_width_unpadded id ds Hu) in Hw.
  assert (Forall (fun c => _offset <= c < _offset + _length) ds) as Hr.
  { unfold unpadded in Hu. destruct (digits _ _ _) as [out|] eqn:Hd; [|discriminate].
    injection Hu as <-. apply digits_range in Hd; [exact Hd | constructor]. }
  rewrite (fromNumber_padded id (Some 2) ds Hn Hu). cbn [Z.eqb].
  destruct (Z.ltb_spec 2 (Z.of_nat (length ds))) as [Hlt2 | _]; [lia |].
  pose proof (Z.mod_pos_bound id _length ltac:(reflexivity)) as Hm.
  pose proof (Z.div_mod id _length ltac:(discriminate)) as Hdm.
  specialize (Hv 0).
  destruct ds as [|c1 [|c2 [|c3 ds]]]; cbn [length] in *; try lia.
  - inversion Hr as [|? ? Hc1 _]; subst. cbn in Hv |- *. unfold _length, _offset in *.
    assert (c1 - 48 = id) as Hc by lia.
    assert (id / 10240 = 0) as -> by (apply Z.div_small; lia).
    rewrite Z.mod_small by lia. repeat f_equal; lia.
  - inversion Hr as [|? ? Hc1 Hr']; subst. inversion Hr' as [|? ? Hc2 _]; subst.
    cbn in Hv |- *. unfold _length, _offset in *.
    assert (id = (c1 - 48) * 10240 + (c2 - 48)) as Hid by lia.
    assert (id / 10240 = c1 - 48) as ->.
    { symmetry. apply (Z.div_unique id 10240 (c1 - 48) (c2 - 48)); lia. }
    assert (id mod 10240 = c2 - 48) as ->.
    { symmetry. apply (Z.mod_unique id 10240 (c1 - 48) (c2 - 48)); lia. }
    change (replicate _ 48 ++ [c1; c2]) with [c1; c2]. repeat f_equal; lia.
Qed.

Lemma toNumber_two_glyphs (id : Z) :
  toNumber (Some [id / _length + _offset; id mod _length + _offset]) = Ok id.
Proof.
  unfold toNumber. cbn [fold_left]. f_equal.
  pose proof (Z.div_mod id _length ltac:(discriminate)). lia.
Qed.

(** The 2-glyph code of an id, as a string. *)
Local Abbreviation code2 :=
  (fun id : Z => [id / _length + _offset; id mod _length + _offset]).

Lemma compress_names_codes (track : list Z) :
  forall array,
    Forall (fun id => 0 <= id < _length ^ 2) track ->
    Tracks.compress_names track array = Ok (array ++ map code2 track).
Proof.
  induction track as [|id track IH]; intros array Hr; cbn [Tracks.compress_names map].
  - now rewrite app_nil_r.
  - inversion Hr as [|? ? Hid Hrest]; subst.
    unfold compressNumber. rewrite (fromNumber_two_glyphs id Hid). cbn [rbind].
    rewrite IH by exact Hrest. now rewrite <- app_assoc.
Qed.

Lemma compress_tracks_codes (tracks : list (list Z)) :
  forall array,
    Forall (Forall (fun id => 0 <= id < _length ^ 2)) tracks ->
    Tracks.compress_tracks tracks array = Ok (array ++ map code2 (concat tracks)).
Proof.
  induction tracks as [|track tracks IH]; intros array Hr;
    cbn [Tracks.compress_tracks concat].
  - now rewrite app_nil_r.
  - inversion Hr as [|? ? Htrack Hrest]; subst.
    rewrite compress_names_codes by exact Htrack. cbn [rbind].
    rewrite IH by exact Hrest. now rewrite map_app, app_assoc.
Qed.

Lemma join_blank (array : list jsstring) : join blank array = concat array.
Proof.
  induction array as [|item [|next array] IH]; [reflexivity | cbn; now rewrite app_nil_r |].
  change (join blank (item :: next :: array)) with (item ++ join blank (next :: array)).
  now rewrite IH.
Qed.

(** With a negative id out of the way, the first id too large for two
    glyphs stops [compress_names] with the width-overflow error. *)
Lemma compress_names_overflow (track : list Z) :
  forall array,
    Forall (fun id => 0 <= id) track ->
    Exists (fun id => _length ^ 2 <= id) track ->
    Tracks.compress_names track array = Throw WidthOverflow.
Proof.
  induction track as [|id track IH]; intros array Hpos Hbig; [inversion Hbig |].
  inversion Hpos as [|? ? Hid Hrest]; subst. cbn [Tracks.compress_names].
  destruct (Z_lt_le_dec id (_length ^ 2)) as [Hlt | Hge].
  - unfold compressNumber. rewrite (fromNumber_two_glyphs id (conj Hid Hlt)). cbn [rbind].
    apply IH; [exact Hrest |]. inversion Hbig; subst; [lia | assumption].
  - unfold compressNumber.
    destruct (unpadded_spec id Hid) as (ds & Hu & _).
    pose proof (natural_width_le_iff id 2 Hid ltac:(lia)) as Hiff.
    rewrite (natural_width_unpadded id ds Hu) in Hiff.
    rewrite (fromNumber_padded id (Some 2) ds Hid Hu). cbn [Z.eqb].
    destruct (Z.ltb_spec 2 (Z.of_nat (length ds))) as [_ | Hle]; [reflexivity |].
    apply Hiff in Hle. lia.
Qed.

Lemma compress_tracks_overflow (tracks : list (list Z)) :
  forall array,
    Forall (Forall (fun id => 0 <= id)) tracks ->
    Exists (Exists (fun id => _length ^ 2 <= id)) tracks ->
    Tracks.compress_tracks tracks array = Throw WidthOverflow.
Proof.
  induction tracks as [|track tracks IH]; intros array Hpos Hbig; [inversion Hbig |].
  inversion Hpos as [|? ? Htrack Hrest]; subst. cbn [Tracks.compress_tracks].
  destruct (decide (Exists (fun id => _length ^ 2 <= id) track)) as [Hhere | Hnot].
  - now rewrite compress_names_overflow.
  - rewrite compress_names_codes.
    + cbn [rbind]. apply IH; [exact Hrest |]. inversion Hbig; subst; [contradiction | assumption].
    + apply Forall_forall. intros id Hin. split.
      * rewrite Forall_forall in Htrack. now apply Htrack.
      * destruct (Z_lt_le_dec id (_length ^ 2)) as [Hlt | Hge]; [exact Hlt |].
        exfalso. apply Hnot. apply Exists_exists. eauto.
Qed.

(** [/.{2}/g] cuts a run of 2-glyph codes back into the codes when none
    of the glyphs is a line terminator. *)
Lemma match_dot2_codes (ids : list Z) :
  Forall (fun id => line_terminator (id / _length + _offset) = false /\
                    line_terminator (id mod _length + _offset) = false) ids ->
  match_dot2 (concat (map code2 ids)) = map code2 ids.
Proof.
  induction ids as [|id ids IH]; intros Hok; [reflexivity |].
  inversion Hok as [|? ? [Hhi Hlo] Hrest]; subst.
  cbn [map concat app match_dot2]. rewrite Hhi, Hlo. cbn [orb].
  now rewrite IH.
Qed.

Lemma Tracks_add_all_number (tracks : list (list Z)) :
  forall this, Tracks.number (Tracks.add_all tracks this) = Tracks.number this ++ tracks.
Proof.
  induction tracks as [|track tracks IH]; intros this; cbn.
  - now rewrite app_nil_r.
  - unfold Tracks.add_all in IH. rewrite IH. cbn. now rewrite <- app_assoc.
Qed.

(** The loop of [_decompress] on the codes of whole tracks does what
    [add] does on the tracks. *)
Lemma decompress_loop_codes (tracks : list (list Z)) :
  forall this,
    Forall (fun track => length track = 3%nat) tracks ->
    Tracks.decompress_loop (map code2 (concat tracks)) this
    = (Ok tt, Tracks.add_all tracks this).
Proof.
  induction tracks as [|track tracks IH]; intros this Hlen; [reflexivity |].
  inversion Hlen as [|? ? Htrack Hrest]; subst.
  destruct track as [|a [|b [|c [|d track]]]]; try discriminate Htrack.
  cbn [concat app map Tracks.decompress_loop head tail].
  unfold decompressNumber. rewrite !toNumber_two_glyphs.
  unfold bind, lift, modify. rewrite IH by exact Hrest. reflexivity.
Qed.

End TracksMore.

(** X8: add(track) returns the number of tracks stored so far;
    afterwards that id looks up the track, the comma-joined ids look up
    that id, artist(id) is the first id of the track, and every earlier
    id looks up what it did before. *)
Theorem Tracks_add_lookup (track : list Z) (this : Tracks.t) :
  let id := Z.of_nat (length (Tracks.number this)) in
  let this' := snd (Tracks.add track this) in
  fst (Tracks.add track this) = Ok id /\
  Tracks.lookup (Num id) this' = Ok (Tracks.Track track) /\
  Tracks.lookup (Str (join comma (map decimal track))) this' = Ok (Tracks.Id id) /\
  Tracks.artist (Num id) this'
    = Ok (match head track with Some name => Num name | None => Undefined end) /\
  (forall i, i < id -> Tracks.lookup (Num i) this' = Tracks.lookup (Num i) this).
Proof.
  cbv zeta. unfold Tracks.artist.
  cbn [Tracks.add fst snd Tracks.lookup Tracks.number Tracks.string].
  assert (forall n : nat, (Z.of_nat n <? 0) = false) as Hneg by (intros n; apply Z.ltb_ge; lia).
  rewrite !Hneg, Nat2Z.id, lookup_app_r, Nat.sub_diag by lia. cbn [lookup list_lookup rbind].
  repeat split.
  - now rewrite lookup_insert_eq.
  - intros i Hi. destruct (Z.ltb_spec i 0) as [_ | Hpos]; [reflexivity |].
    rewrite lookup_app_l by lia. reflexivity.
Qed.

Lemma Tracks_add_lookup_witness :
  Tracks.lookup (Num 0) (snd (Tracks.add [0; 1; 3] (snd (Tracks.add [0; 1; 2] Tracks.empty))))
  = Tracks.lookup (Num 0) (snd (Tracks.add [0; 1; 2] Tracks.empty)).
Proof.
  apply (Tracks_add_lookup [0; 1; 3] (snd (Tracks.add [0; 1; 2] Tracks.empty))).
  reflexivity.
Defined.

(** X9: compress() succeeds on a table whose ids all lie in [0, K^2) and
    then writes exactly two glyphs per id; when no id is negative and
    some id is K^2 or more, it fails with the width-overflow error
    instead of writing a wrapped code. *)
Theorem Tracks_compress_capacity (this : Tracks.t) :
  (Forall (Forall (fun id => 0 <= id < Radix._length ^ 2)) (Tracks.number this) ->
     exists text, Tracks._compress this = Ok text /\
                  length text = (2 * length (concat (Tracks.number this)))%nat) /\
  (Forall (Forall (fun id => 0 <= id)) (Tracks.number this) ->
   Exists (Exists (fun id => Radix._length ^ 2 <= id)) (Tracks.number this) ->
     Tracks._compress this = Throw WidthOverflow).
Proof.
  unfold Tracks._compress. split.
  - intros Hr. rewrite compress_tracks_codes by exact Hr. cbn [rbind app].
    eexists. split; [reflexivity |]. rewrite join_blank.
    induction (concat (Tracks.number this)) as [|id ids IH]; [reflexivity |].
    cbn [map concat app length]. rewrite IH. lia.
  - intros Hpos Hbig. now rewrite compress_tracks_overflow.
Qed.

Lemma Tracks_compress_capacity_witness :
  (exists text, Tracks._compress (Tracks.add_all [[0; 1; 2]] Tracks.empty) = Ok text /\
                length text = 6%nat) /\
  Tracks._compress (Tracks.add_all [[0; 1; 104857600]] Tracks.empty) = Throw WidthOverflow.
Proof.
  split.
  - apply (proj1 (Tracks_compress_capacity (Tracks.add_all [[0; 1; 2]] Tracks.empty))).
    repeat constructor; unfold Radix._length; lia.
  - apply (proj2 (Tracks_compress_capacity (Tracks.add_all [[0; 1; 104857600]] Tracks.empty))).
    + repeat constructor; lia.
    + apply Exists_cons_hd. apply Exists_cons_tl, Exists_cons_tl, Exists_cons_hd.
      unfold Radix._length. lia.
Defined.

(** X10: for tracks of three ids in [0, K^2) none of whose glyphs is a
    line terminator (U+2028, U+2029), added to an empty table,
    decompress(compress()) rebuilds exactly the table, on a receiver in
    any state; the value it returns is true only for the table without
    tracks. *)
Theorem Tracks_decompress_compress (tracks : list (list Z)) (this : Tracks.t) :
  Forall (fun track =>
            length track = 3%nat /\
            Forall (fun id => 0 <= id < Radix._length ^ 2 /\
                              line_terminator (id / Radix._length + Radix._offset) = false /\
                              line_terminator (id mod Radix._length + Radix._offset) = false)
                   track) tracks ->
  exists text,
    Tracks._compress (Tracks.add_all tracks Tracks.empty) = Ok text /\
    Tracks._decompress (Some text) this
    = (Ok (bool_decide (tracks = [])), Tracks.add_all tracks Tracks.empty).
Proof.
  intros Hok.
  assert (Forall (fun track => length track = 3%nat) tracks) as Hlen.
  { eapply Forall_impl; [exact Hok |]. now intros track [H _]. }
  assert (Forall (Forall (fun id => 0 <= id < Radix._length ^ 2)) tracks) as Hr.
  { eapply Forall_impl; [exact Hok |]. intros track [_ H].
    eapply Forall_impl; [exact H |]. now intros id [H' _]. }
  assert (Forall (fun id => line_terminator (id / Radix._length + Radix._offset) = false /\
                            line_terminator (id mod Radix._length + Radix._offset) = false)
                 (concat tracks)) as Hlt.
  { apply Forall_concat. eapply Forall_impl; [exact Hok |]. intros track [_ H].
    eapply Forall_impl; [exact H |]. now intros id [_ H']. }
  unfold Tracks._compress.
  rewrite (Tracks_add_all_number tracks Tracks.empty). cbn [Tracks.number Tracks.empty app].
  rewrite compress_tracks_codes by exact Hr. cbn [rbind app].
  eexists. split; [reflexivity |].
  unfold Tracks._decompress. rewrite join_blank, match_dot2_codes by exact Hlt.
  unfold bind, modify, get, ret. rewrite decompress_loop_codes by exact Hlen.
  f_equal. f_equal.
  rewrite (Tracks_add_all_number tracks {| Tracks.string := ∅; Tracks.number := [] |}).
  cbn [Tracks.number app]. rewrite length_map.
  apply bool_decide_ext.
  assert (length (concat tracks) = (3 * length tracks)%nat) as ->.
  { clear -Hlen. induction Hlen as [|track tracks Ht _ IH]; [reflexivity |].
    cbn [concat length]. rewrite length_app, IH, Ht. lia. }
  destruct tracks; cbn [length]; split; intros H; try discriminate; try reflexivity; lia.
Qed.

Lemma Tracks_decompress_compress_witness :
  exists text,
    Tracks._compress (Tracks.add_all [[0; 1; 2]; [0; 1; 3]] Tracks.empty) = Ok text /\
    Tracks._decompress (Some text) Tracks.empty
    = (Ok (bool_decide ([[0; 1; 2]; [0; 1; 3]] = [])),
       Tracks.add_all [[0; 1; 2]; [0; 1; 3]] Tracks.empty).
Proof.
  apply Tracks_decompress_compress.
  repeat constructor; unfold Radix._length; try lia.
Defined.

(** X21: an id whose second glyph is a line terminator (U+2028 or
    U+2029, the codes of 8184 and 8185) is written by compress() but
    cannot be read back: for a table holding the one track [a, b, c]
    with such an a, decompress() of the text compress() wrote finds two
    chunks instead of three and throws a TypeError. *)
Theorem Tracks_line_terminator_glyph (a b c : Z) (this : Tracks.t) :
  0 <= a < Radix._length ^ 2 ->
  line_terminator (a mod Radix._length + Radix._offset) = true ->
  0 <= b < Radix._length ^ 2 ->
  line_terminator (b / Radix._length + Radix._offset) = false ->
  line_terminator (b mod Radix._length + Radix._offset) = false ->
  0 <= c < Radix._length ^ 2 ->
  line_terminator (c / Radix._length + Radix._offset) = false ->
  line_terminator (c mod Radix._length + Radix._offset) = false ->
  exists text,
    Tracks._compress (Tracks.add_all [[a; b; c]] Tracks.empty) = Ok text /\
    fst (Tracks._decompress (Some text) this) = Throw TypeError.
Proof.
  intros Ha Hlt Hb Hb1 Hb2 Hc Hc1 Hc2.
  unfold Tracks._compress. cbn [Tracks.add_all fold_left Tracks.add snd Tracks.number
                                Tracks.empty app].
  rewrite compress_tracks_codes by (repeat constructor; lia). cbn [rbind app].
  eexists. split; [reflexivity |].
  unfold Tracks._decompress. rewrite join_blank. cbn [concat map app match_dot2].
  rewrite Hlt, Hb1, Hb2, Hc1, Hc2, !orb_true_r. cbn [orb].
  reflexivity.
Qed.

Lemma Tracks_line_terminator_glyph_witness :
  exists text,
    Tracks._compress (Tracks.add_all [[8184; 1; 2]] Tracks.empty) = Ok text /\
    fst (Tracks._decompress (Some text) Tracks.empty) = Throw TypeError.
Proof.
  apply Tracks_line_terminator_glyph; unfold Radix._length; try lia; reflexivity.
Defined.

(** ** Images: add, addUrl and lookup *)

Section ImagesMore.

Import Images.

Lemma array_get_set_eq {A} (n : Z) (v : A) (array : jsarray A) :
  0 <= n < 4294967295 ->
  array_get (Num n) (array_set (Num n) v array) = Some v.
Proof.
  intros Hn. unfold array_get, array_set, array_index.
  assert ((0 <=? n) && (n <? 4294967295) = true) as ->.
  { apply andb_true_iff. split; [apply Z.leb_le | apply Z.ltb_lt]; lia. }
  cbn [elems]. case_bool_decide as Hlen.
  - now rewrite list_lookup_insert_eq.
  - rewrite lookup_app_r by lia. rewrite lookup_app_r; rewrite length_replicate; [|lia].
    now rewrite Nat.sub_diag.
Qed.

Lemma array_get_set_ne {A} (m n : Z) (v : A) (array : jsarray A) :
  0 <= n < 4294967295 -> 0 <= m < 4294967295 -> m <> n ->
  array_get (Num m) (array_set (Num n) v array) = array_get (Num m) array.
Proof.
  intros Hn Hm Hne. unfold array_get, array_set, array_index.
  assert ((0 <=? n) && (n <? 4294967295) = true) as ->.
  { apply andb_true_iff. split; [apply Z.leb_le | apply Z.ltb_lt]; lia. }
  assert ((0 <=? m) && (m <? 4294967295) = true) as ->.
  { apply andb_true_iff. split; [apply Z.leb_le | apply Z.ltb_lt]; lia. }
  cbn [elems]. assert (Z.to_nat m <> Z.to_nat n) as Hnat by lia.
  case_bool_decide as Hlen.
  - now rewrite list_lookup_insert_ne by congruence.
  - destruct (decide (Z.to_nat m < length (elems array))%nat) as [Hin | Hout].
    + now rewrite lookup_app_l by exact Hin.
    + rewrite (lookup_ge_None_2 (elems array)) by lia.
      rewrite lookup_app_r by lia.
      destruct (decide (Z.to_nat m - length (elems array)
                        < Z.to_nat n - length (elems array))%nat) as [Hhole | Hpast].
      * rewrite lookup_app_l by (rewrite length_replicate; exact Hhole).
        now rewrite lookup_replicate_2 by exact Hhole.
      * rewrite lookup_app_r by (rewrite length_replicate; lia).
        rewrite length_replicate. now rewrite lookup_ge_None_2 by (cbn; lia).
Qed.

(** The type stored for an extension reads back as the extension. *)
Lemma types_read_back (ext : jsstring) (ctype : Z) :
  property _compressTypes ext = Some ctype ->
  to_string (read _types (Num ctype)) = ext.
Proof.
  unfold _compressTypes. cbn [property].
  repeat (case_bool_decide; [intros [= <-]; subst ext; reflexivity |]).
  intros Hnone. discriminate Hnone.
Qed.

End ImagesMore.

(** What [add] with an array index, a recognised size and a recognised
    type returns and stores. *)
Lemma add_then_lookup
    (names : Names.t) (n : Z) (size hash type : value) (csize ctype : Z) (this : Images.t) :
  0 <= n < 4294967295 ->
  property Images._compressSizes (to_string size) = Some csize ->
  property Images._compressTypes (to_string type) = Some ctype ->
  let r := Images.add names (Num n) size hash type this in
  fst r = Ok (Num n) /\
  Images.lookup (Num n) (snd r)
    = Ok (Images._url ++ to_string (Images.read (Images._sizes this) (Num csize))
            ++ str "/" ++ to_string hash ++ str "." ++ to_string type) /\
  (forall m, 0 <= m < 4294967295 -> m <> n ->
     Images.lookup (Num m) (snd r) = Images.lookup (Num m) this).
Proof.
  intros Hn Hsize Htype. cbv zeta.
  unfold Images.add, bind, lift, modify, ret. cbn [Names.lookup rbind].
  rewrite Htype, Hsize. cbn [fst snd]. split; [reflexivity |].
  unfold Images.lookup. cbn [rbind Images.number Images._sizes]. split.
  - rewrite array_get_set_eq by exact Hn.
    cbn [Images.size Images.hash Images.type].
    now rewrite (types_read_back (to_string type) ctype Htype).
  - intros m Hm Hne. now rewrite array_get_set_ne by assumption.
Qed.

(** X11: add with a number id that is an array index, a recognised size
    and a recognised type returns the id; afterwards lookup(id) is the
    base URL, the table's label for the size, "/", the hash, "." and the
    type as it was given, and lookup of every other index is what it was
    before. *)
Theorem Images_add_lookup
    (names : Names.t) (n : Z) (size hash type : value) (csize ctype : Z) (this : Images.t) :
  0 <= n < 4294967295 ->
  property Images._compressSizes (to_string size) = Some csize ->
  property Images._compressTypes (to_string type) = Some ctype ->
  let r := Images.add names (Num n) size hash type this in
  fst r = Ok (Num n) /\
  Images.lookup (Num n) (snd r)
    = Ok (Images._url ++ to_string (Images.read (Images._sizes this) (Num csize))
            ++ str "/" ++ to_string hash ++ str "." ++ to_string type) /\
  (forall m, 0 <= m < 4294967295 -> m <> n ->
     Images.lookup (Num m) (snd r) = Images.lookup (Num m) this).
Proof. exact (add_then_lookup names n size hash type csize ctype this). Qed.

Lemma Images_add_lookup_witness :
  Images.lookup (Num 7)
    (snd (Images.add Names.empty (Num 7) (Str (str "300")) (Num 12345) (Str (str "png"))
            AlbumImages))
  = Ok (str "http://userserve-ak.last.fm/serve/300x300/12345.png").
Proof.
  apply (Images_add_lookup Names.empty 7 (Str (str "300")) (Num 12345) (Str (str "png"))
           5 10 AlbumImages ltac:(lia) eq_refl eq_refl).
Defined.

(** When [add] fails, and what it leaves behind. *)
Lemma add_outcome
    (names : Names.t) (id size hash type : value) (this : Images.t) :
  let r := Images.add names id size hash type this in
  ((exists e, fst r = Throw e) <->
     id = Undefined \/
     property Images._compressTypes (to_string type) = None \/
     property Images._compressSizes (to_string size) = None) /\
  (forall e, fst r = Throw e -> snd r = this).
Proof.
  cbv zeta. unfold Images.add, bind, lift, modify, ret, throw.
  destruct id as [|n|s]; cbn [Names.lookup rbind fst snd].
  - split; [|reflexivity]. split; [now left | intros _; eauto].
  - destruct (property Images._compressTypes (to_string type)) as [ctype|];
      [destruct (property Images._compressSizes (to_string size)) as [csize|] |];
      cbn [fst snd]; (split; [split|]); try (intros [e He]); try discriminate;
        try (intros [Hid | [Hty | Hsz]]; discriminate); eauto.
    all: intros e He; discriminate He.
  - destruct (property Images._compressTypes (to_string type)) as [ctype|];
      [destruct (property Images._compressSizes (to_string size)) as [csize|] |];
      cbn [fst snd]; (split; [split|]); try (intros [e He]); try discriminate;
        try (intros [Hid | [Hty | Hsz]]; discriminate); eauto.
    all: intros e He; discriminate He.
Qed.

(** X12: for a type and a size that are not among the names that every
    object inherits, add fails exactly when the id is neither a number
    nor a string or the type or the size is not recognised, whether or
    not Names knows the id; and a failed add leaves the table as it
    was. *)
Theorem Images_add_fails
    (names : Names.t) (id size hash type : value) (this : Images.t) :
  to_string type ∉ Object_prototype ->
  to_string size ∉ Object_prototype ->
  let r := Images.add names id size hash type this in
  ((exists e, fst r = Throw e) <->
     id = Undefined \/
     property Images._compressTypes (to_string type) = None \/
     property Images._compressSizes (to_string size) = None) /\
  (forall e, fst r = Throw e -> snd r = this).
Proof. intros _ _. exact (add_outcome names id size hash type this). Qed.

Lemma Images_add_fails_witness :
  snd (Images.add Names.empty (Num 0) (Num 64) (Num 1) (Str (str "JPG")) ArtistImages)
  = ArtistImages.
Proof.
  assert (to_string (Str (str "JPG")) ∉ Object_prototype) as Htype.
  { unfold Object_prototype.
    repeat (apply not_elem_of_cons; split; [discriminate |]). apply not_elem_of_nil. }
  assert (to_string (Num 64) ∉ Object_prototype) as Hsize.
  { unfold Object_prototype.
    repeat (apply not_elem_of_cons; split; [discriminate |]). apply not_elem_of_nil. }
  apply (proj2 (Images_add_fails Names.empty (Num 0) (Num 64) (Num 1) (Str (str "JPG"))
                  ArtistImages Htype Hsize) TypeNotRecognized).
  reflexivity.
Defined.


Section ImagesUrl.

Import Images.

Lemma match_word_nonempty (pattern text matched : jsstring) :
  pattern <> [] -> match_word pattern text = Some matched -> (0 < length matched)%nat.
Proof.
  destruct pattern as [|p pattern]; [contradiction |]. intros _.
  cbn [match_word]. destruct text as [|c text]; [discriminate |].
  destruct ((c =? p) || (c =? p - 32)); [|discriminate].
  destruct (match_word pattern text); [|discriminate].
  intros [= <-]. cbn. lia.
Qed.

Lemma match_extension_nonempty (text matched : jsstring) :
  match_extension text = Some matched -> (0 < length matched)%nat.
Proof.
  unfold match_extension.
  destruct (match_word (str "jpg") text) eqn:H1.
  { intros [= <-]. eapply match_word_nonempty; [|exact H1]. discriminate. }
  destruct (match_word (str "jpeg") text) eqn:H2.
  { intros [= <-]. eapply match_word_nonempty; [|exact H2]. discriminate. }
  destruct (match_word (str "png") text) eqn:H3.
  { intros [= <-]. eapply match_word_nonempty; [|exact H3]. discriminate. }
  intros H4. eapply match_word_nonempty; [|exact H4]. discriminate.
Qed.

(** Any fuel from the length of the text on gives the same matches. *)
Lemma url_matches_fuel (fuel1 : nat) :
  forall fuel2 text,
    (length text <= fuel1)%nat -> (length text <= fuel2)%nat ->
    url_matches fuel1 text = url_matches fuel2 text.
Proof.
  induction fuel1 as [|fuel1 IH]; intros fuel2 text H1 H2.
  - destruct text; [|cbn in H1; lia]. now destruct fuel2.
  - destruct fuel2 as [|fuel2]; [destruct text; [reflexivity | cbn in H2; lia] |].
    destruct text as [|c rest]; [reflexivity |]. cbn [url_matches].
    cbn [length] in H1, H2.
    destruct (is_digit c) eqn:Hd.
    + f_equal. cbn [digit_run]. rewrite Hd. cbn [length drop].
      apply IH; rewrite length_drop; lia.
    + destruct (match_extension (c :: rest)) as [matched|] eqn:He.
      * f_equal. apply match_extension_nonempty in He.
        apply IH; rewrite length_drop; cbn [length]; lia.
      * apply IH; lia.
Qed.

Lemma match_url_skip (c : Z) (rest : jsstring) :
  is_digit c = false -> match_extension (c :: rest) = None ->
  match_url (c :: rest) = match_url rest.
Proof.
  intros Hd He. unfold match_url. cbn [length url_matches]. now rewrite Hd, He.
Qed.

Lemma digit_run_app (run rest : jsstring) :
  Forall (fun c => is_digit c = true) run ->
  match rest with [] => True | c :: _ => is_digit c = false end ->
  digit_run (run ++ rest) = run.
Proof.
  intros Hrun Hrest. induction Hrun as [|c run Hc _ IH]; cbn [app digit_run].
  - destruct rest as [|c rest]; [reflexivity | cbn [digit_run]; now rewrite Hrest].
  - now rewrite Hc, IH.
Qed.

Lemma match_url_digits (run rest : jsstring) :
  run <> [] ->
  Forall (fun c => is_digit c = true) run ->
  match rest with [] => True | c :: _ => is_digit c = false end ->
  match_url (run ++ rest) = run :: match_url rest.
Proof.
  intros Hne Hrun Hrest. unfold match_url.
  destruct run as [|c run]; [contradiction |].
  pose proof (digit_run_app (c :: run) rest Hrun Hrest) as Hdr.
  inversion Hrun as [|? ? Hc _]; subst.
  cbn [app length url_matches]. rewrite Hc.
  change (c :: run ++ rest) with ((c :: run) ++ rest). rewrite Hdr.
  rewrite drop_app_length. f_equal.
  apply url_matches_fuel; [rewrite length_app; lia | lia].
Qed.

Lemma match_url_extension (matched rest : jsstring) (c : Z) (more : jsstring) :
  matched = c :: more -> is_digit c = false ->
  match_extension (matched ++ rest) = Some matched ->
  match_url (matched ++ rest) = matched :: match_url rest.
Proof.
  intros -> Hd He. unfold match_url.
  cbn [app length url_matches]. rewrite Hd.
  change (c :: more ++ rest) with ((c :: more) ++ rest). rewrite He.
  rewrite drop_app_length. f_equal.
  apply url_matches_fuel; [rewrite length_app; lia | lia].
Qed.

(** The base URL holds no match. *)
Lemma match_url_base (rest : jsstring) : match_url (_url ++ rest) = match_url rest.
Proof.
  unfold _url. cbn [str list_ascii_of_string map app].
  repeat (rewrite match_url_skip by reflexivity). reflexivity.
Qed.

End ImagesUrl.

Section ImagesUrlLookup.

Import Images.

Lemma match_url_tail (hash ext : jsstring) (ctype : Z) :
  hash <> [] ->
  Forall (fun c => is_digit c = true) hash ->
  property _compressTypes ext = Some ctype ->
  match_url (str "/" ++ hash ++ str "." ++ ext) = [hash; ext].
Proof.
  intros Hne Hdigits Hext.
  change (str "/" ++ hash ++ str "." ++ ext) with (47 :: hash ++ 46 :: ext).
  rewrite match_url_skip by reflexivity.
  rewrite match_url_digits by (assumption || reflexivity).
  rewrite match_url_skip by reflexivity. f_equal.
  revert Hext. unfold _compressTypes. cbn [property].
  repeat (case_bool_decide; [intros _; subst ext; reflexivity |]).
  intros Hnone. discriminate Hnone.
Qed.

(** The matches of a URL that [lookup] builds for a hash of digits: they
    end with the size key, the hash and the extension. *)
Lemma match_url_lookup (sizes : list (jsstring * value)) (csize ctype : Z)
    (hash ext : jsstring) :
  sizes = _sizes ArtistImages \/ sizes = _sizes AlbumImages ->
  1 <= csize <= 5 ->
  hash <> [] ->
  Forall (fun c => is_digit c = true) hash ->
  property _compressTypes ext = Some ctype ->
  exists key earlier,
    property _compressSizes key = Some csize /\
    rev (match_url (_url ++ to_string (read sizes (Num csize))
                      ++ str "/" ++ hash ++ str "." ++ ext))
    = ext :: hash :: key :: earlier.
Proof.
  intros Hsizes Hc Hne Hdigits Hext.
  pose proof (match_url_tail hash ext ctype Hne Hdigits Hext) as Htail.
  rewrite match_url_base.
  assert (csize = 1 \/ csize = 2 \/ csize = 3 \/ csize = 4 \/ csize = 5) as Hcases by lia.
  destruct Hsizes as [-> | ->];
    destruct Hcases as [-> | [-> | [-> | [-> | ->]]]];
    match goal with
    | |- context [to_string (read ?s (Num ?c))] =>
        let label := eval vm_compute in (to_string (read s (Num c))) in
        change (to_string (read s (Num c))) with label
    end.
  - exists (str "34"), []. split; [reflexivity |].
    rewrite (match_url_digits [51; 52] (str "/" ++ hash ++ str "." ++ ext))
      by (discriminate || (repeat constructor) || reflexivity).
    now rewrite Htail.
  - exists (str "64"), []. split; [reflexivity |].
    rewrite (match_url_digits [54; 52] (str "/" ++ hash ++ str "." ++ ext))
      by (discriminate || (repeat constructor) || reflexivity).
    now rewrite Htail.
  - exists (str "126"), []. split; [reflexivity |].
    rewrite (match_url_digits [49; 50; 54] (str "/" ++ hash ++ str "." ++ ext))
      by (discriminate || (repeat constructor) || reflexivity).
    now rewrite Htail.
  - exists (str "252"), []. split; [reflexivity |].
    rewrite (match_url_digits [50; 53; 50] (str "/" ++ hash ++ str "." ++ ext))
      by (discriminate || (repeat constructor) || reflexivity).
    now rewrite Htail.
  - exists (str "300"), [str "300"]. split; [reflexivity |].
    change ([51; 48; 48; 120; 51; 48; 48] ++ str "/" ++ hash ++ str "." ++ ext)
      with ([51; 48; 48] ++ 120 :: [51; 48; 48] ++ str "/" ++ hash ++ str "." ++ ext).
    rewrite (match_url_digits [51; 48; 48])
      by (discriminate || (repeat constructor) || reflexivity).
    rewrite match_url_skip by reflexivity.
    rewrite (match_url_digits [51; 48; 48] (str "/" ++ hash ++ str "." ++ ext))
      by (discriminate || (repeat constructor) || reflexivity).
    now rewrite Htail.
  - exists (str "34"), []. split; [reflexivity |].
    change ([51; 52; 115] ++ str "/" ++ hash ++ str "." ++ ext)
      with ([51; 52] ++ 115 :: str "/" ++ hash ++ str "." ++ ext).
    rewrite (match_url_digits [51; 52])
      by (discriminate || (repeat constructor) || reflexivity).
    rewrite match_url_skip by reflexivity.
    now rewrite Htail.
  - exists (str "64"), []. split; [reflexivity |].
    change ([54; 52; 115] ++ str "/" ++ hash ++ str "." ++ ext)
      with ([54; 52] ++ 115 :: str "/" ++ hash ++ str "." ++ ext).
    rewrite (match_url_digits [54; 52])
      by (discriminate || (repeat constructor) || reflexivity).
    rewrite match_url_skip by reflexivity.
    now rewrite Htail.
  - exists (str "126"), []. split; [reflexivity |].
    rewrite (match_url_digits [49; 50; 54] (str "/" ++ hash ++ str "." ++ ext))
      by (discriminate || (repeat constructor) || reflexivity).
    now rewrite Htail.
  - exists (str "252"), []. split; [reflexivity |].
    rewrite (match_url_digits [50; 53; 50] (str "/" ++ hash ++ str "." ++ ext))
      by (discriminate || (repeat constructor) || reflexivity).
    now rewrite Htail.
  - exists (str "300"), [str "300"]. split; [reflexivity |].
    change ([51; 48; 48; 120; 51; 48; 48] ++ str "/" ++ hash ++ str "." ++ ext)
      with ([51; 48; 48] ++ 120 :: [51; 48; 48] ++ str "/" ++ hash ++ str "." ++ ext).
    rewrite (match_url_digits [51; 48; 48])
      by (discriminate || (repeat constructor) || reflexivity).
    rewrite match_url_skip by reflexivity.
    rewrite (match_url_digits [51; 48; 48] (str "/" ++ hash ++ str "." ++ ext))
      by (discriminate || (repeat constructor) || reflexivity).
    now rewrite Htail.
Qed.

End ImagesUrlLookup.

(** X13: on the artist table and on the album table, for an array index
    as id, addUrl of a URL that lookup builds (base URL, the table's
    label of a size, "/", a hash made of digits, ".", a recognised
    extension) returns the id and stores a record whose lookup is that
    URL again. *)
Theorem Images_addUrl_lookup
    (names : Names.t) (n csize ctype : Z) (hash ext : jsstring) (this : Images.t) :
  0 <= n < 4294967295 ->
  Images._sizes this = Images._sizes ArtistImages \/
  Images._sizes this = Images._sizes AlbumImages ->
  1 <= csize <= 5 ->
  property Images._compressTypes ext = Some ctype ->
  hash <> [] ->
  Forall (fun c => Images.is_digit c = true) hash ->
  let url := Images._url ++ to_string (Images.read (Images._sizes this) (Num csize))
               ++ str "/" ++ hash ++ str "." ++ ext in
  let r := Images.addUrl names (Num n) (Some url) this in
  fst r = Images.Returns (Num n) /\
  Images.lookup (Num n) (snd r) = Ok url.
Proof.
  intros Hn Hsizes Hc Hext Hne Hdigits url r.
  destruct (match_url_lookup (Images._sizes this) csize ctype hash ext
              Hsizes Hc Hne Hdigits Hext) as (key & earlier & Hkey & Hrev).
  fold url in Hrev.
  destruct (add_then_lookup names n (Str key) (Str hash) (Str ext) csize ctype this
              Hn Hkey Hext) as (Hret & Hlook & _).
  subst r. unfold Images.addUrl.
  assert (url <> []) as Hurl by (subst url; discriminate).
  destruct url as [|c url'] eqn:Eurl; [contradiction |].
  rewrite Hrev.
  destruct (Images.add names (Num n) (Str key) (Str hash) (Str ext) this) as [res this'].
  cbn [fst snd] in *. subst res. split; [reflexivity |]. rewrite <- Eurl. exact Hlook.
Qed.

Lemma Images_addUrl_lookup_witness :
  let url := str "http://userserve-ak.last.fm/serve/64s/12345.jpg" in
  fst (Images.addUrl Names.empty (Num 3) (Some url) AlbumImages) = Images.Returns (Num 3) /\
  Images.lookup (Num 3) (snd (Images.addUrl Names.empty (Num 3) (Some url) AlbumImages))
  = Ok url.
Proof.
  apply (Images_addUrl_lookup Names.empty 3 2 20 (str "12345") (str "jpg") AlbumImages);
    try reflexivity; try lia; try discriminate.
  - now right.
  - repeat constructor.
Defined.


Section ImagesCodec.

Import Radix Images.

Variable StringToNumber : jsstring -> jsnumber.
Variable names : Names.t.

Local Abbreviation code2 :=
  (fun n : Z => [n / _length + _offset; n mod _length + _offset]).

Lemma fromNumber_one_glyph (n : Z) :
  0 <= n < _length -> fromNumber (int n) None = Ok [n + _offset].
Proof.
  intros [Hn Hlt].
  destruct (unpadded_spec n Hn) as (ds & Hu & Hlen & Hv & Hub & Hlb).
  assert (natural_width n <= 1) as Hw.
  { apply natural_width_le; [|lia]. now rewrite Z.pow_1_r. }
  rewrite (natural_width_unpadded n ds Hu) in Hw.
  rewrite (fromNumber_padded n None ds Hn Hu).
  destruct (Z.ltb_spec 1 (Z.of_nat (length ds))) as [Hlt1 | _]; [lia |].
  specialize (Hv 0).
  destruct ds as [|c [|c' ds]]; cbn [length] in *; try lia.
  change (replicate _ 48 ++ [c]) with [c].
  cbn in Hv. unfold _length, _offset in *. repeat f_equal. lia.
Qed.

Lemma toNumber_one_glyph (n : Z) : toNumber (Some [n + _offset]) = Ok n.
Proof. unfold toNumber. cbn [fold_left]. f_equal. lia. Qed.

(** The five glyphs that [_compress] writes for a storable record. *)
Lemma compress_record_storable (index : Z) (o : obj) :
  storable index o ->
  exists h,
    hash o = Num h /\ 0 <= h < _length ^ 2 /\ dot_glyphs h /\
    compress_record StringToNumber o
    = Ok (code2 index ++ [size o + type o + _offset] ++ code2 h).
Proof.
  intros (Hid & Hi & _ & Hs & Ht & h & Hh & Hhr & Hhd).
  exists h. split; [exact Hh |]. split; [exact Hhr |]. split; [exact Hhd |].
  unfold compress_record, compressNumber. rewrite Hid, Hh. cbn [to_number].
  rewrite (fromNumber_two_glyphs index Hi). cbn [rbind].
  rewrite fromNumber_one_glyph by (unfold _length; lia). cbn [rbind].
  rewrite (fromNumber_two_glyphs h Hhr). reflexivity.
Qed.

(** [_decompress] reads such five glyphs back as the record and stores
    it at its index. *)
Lemma decompress_record_storable (index h : Z) (o : obj) (this : t) :
  storable index o -> hash o = Num h ->
  exists this',
    decompress_record names (code2 index ++ [size o + type o + _offset] ++ code2 h) this
    = (Ok tt, this') /\
    number this' = {| elems := elems (array_set (Num index) o (number this));
                      props := props (number this) |} /\
    _sizes this' = _sizes this /\ key this' = key this.
Proof.
  intros (Hid & Hi & _ & Hs & Ht & h' & Hh' & _) Hh.
  unfold decompress_record. cbn [app substr drop take].
  unfold decompressNumber. rewrite toNumber_one_glyph, !toNumber_two_glyphs.
  unfold bind, lift, modify. cbn [Names.lookup Images.id].
  assert (Z.rem (size o + type o) 10 = size o) as ->.
  { assert (size o = 1 \/ size o = 2 \/ size o = 3 \/ size o = 4 \/ size o = 5) as Hc by lia.
    destruct Hc as [-> | [-> | [-> | [-> | ->]]]];
      destruct Ht as [-> | [-> | [-> | ->]]]; reflexivity. }
  assert ({| id := Num index; size := size o; hash := Num h;
             type := size o + type o - size o |} = o) as ->.
  { destruct o as [oid osize ohash otype]. cbn in *. subst.
    injection Hh as ->. f_equal. lia. }
  eexists. split; [reflexivity |]. cbn [number _sizes key]. repeat split.
  unfold array_set, array_index.
  destruct ((0 <=? index) && (index <? 4294967295)) eqn:Hidx; [reflexivity |].
  exfalso. apply andb_false_iff in Hidx as [Hidx | Hidx];
    [apply Z.leb_gt in Hidx | apply Z.ltb_ge in Hidx]; unfold _length in Hi; lia.
Qed.

Lemma record_glyphs_storable (index : Z) (o : obj) :
  storable index o ->
  exists h,
    hash o = Num h /\
    record_glyphs o = code2 index ++ [size o + type o + _offset] ++ code2 h /\
    compress_record StringToNumber o = Ok (record_glyphs o) /\
    match_dot5 (record_glyphs o) = [record_glyphs o] /\
    forall rest, match_dot5 (record_glyphs o ++ rest) = record_glyphs o :: match_dot5 rest.
Proof.
  intros Hst. destruct (compress_record_storable index o Hst) as (h & Hh & Hhr & Hhd & Hc).
  destruct Hst as (Hid & Hi & Hdi & Hs & Ht & _).
  exists h. split; [exact Hh |].
  assert (record_glyphs o = code2 index ++ [size o + type o + _offset] ++ code2 h) as Hg.
  { unfold record_glyphs. now rewrite Hid, Hh. }
  split; [exact Hg |]. split; [now rewrite Hg |].
  assert (line_terminator (size o + type o + _offset) = false) as Hmid.
  { assert (size o = 1 \/ size o = 2 \/ size o = 3 \/ size o = 4 \/ size o = 5) as Hc5 by lia.
    destruct Hc5 as [-> | [-> | [-> | [-> | ->]]]];
      destruct Ht as [-> | [-> | [-> | ->]]]; reflexivity. }
  destruct Hdi as [Hd1 Hd2]. destruct Hhd as [Hd3 Hd4].
  rewrite Hg. cbn [app match_dot5]. rewrite Hd1, Hd2, Hmid, Hd3, Hd4. cbn [orb].
  split; [reflexivity |]. intros rest. reflexivity.
Qed.

(** [_compress] over slots that hold storable records writes their
    glyphs one after the other, skipping the holes. *)
Lemma compress_loop_storable (slots : list (option obj)) :
  forall (offset : nat) (text : jsstring),
    (forall (j : nat) o, slots !! j = Some (Some o) -> storable (Z.of_nat (offset + j)) o) ->
    compress_loop StringToNumber names slots text
    = Returns (text ++ concat (map record_glyphs (omap (fun slot => slot) slots))).
Proof.
  induction slots as [|[o|] slots IH]; intros offset text Hst; cbn [compress_loop omap list_omap].
  - now rewrite app_nil_r.
  - destruct (record_glyphs_storable (Z.of_nat (offset + 0)) o (Hst 0%nat o eq_refl))
      as (h & _ & _ & -> & _).
    cbn [map concat]. rewrite app_assoc. apply (IH (S offset)).
    intros j o' Hj. replace (S offset + j)%nat with (offset + S j)%nat by lia.
    now apply Hst.
  - apply (IH (S offset)).
    intros j o' Hj. replace (S offset + j)%nat with (offset + S j)%nat by lia.
    now apply Hst.
Qed.

Lemma match_dot5_storable (slots : list (option obj)) :
  forall offset : nat,
    (forall (j : nat) o, slots !! j = Some (Some o) -> storable (Z.of_nat (offset + j)) o) ->
    match_dot5 (concat (map record_glyphs (omap (fun slot => slot) slots)))
    = map record_glyphs (omap (fun slot => slot) slots).
Proof.
  induction slots as [|[o|] slots IH]; intros offset Hst; cbn [omap list_omap map concat].
  - reflexivity.
  - destruct (record_glyphs_storable (Z.of_nat (offset + 0)) o (Hst 0%nat o eq_refl))
      as (h & _ & _ & _ & _ & ->).
    f_equal. apply (IH (S offset)).
    intros j o' Hj. replace (S offset + j)%nat with (offset + S j)%nat by lia.
    now apply Hst.
  - apply (IH (S offset)).
    intros j o' Hj. replace (S offset + j)%nat with (offset + S j)%nat by lia.
    now apply Hst.
Qed.

(** [_decompress] over those glyphs puts every record back at its index;
    the array it builds is the one that was written, up to the holes at
    its end. *)
Lemma decompress_loop_storable (slots : list (option obj)) :
  forall (offset : nat) (this : t),
    (forall (j : nat) o, slots !! j = Some (Some o) -> storable (Z.of_nat (offset + j)) o) ->
    (length (elems (number this)) <= offset)%nat ->
    exists this',
      decompress_loop names (map record_glyphs (omap (fun slot => slot) slots)) this
      = (Ok tt, this') /\
      elems (number this) ++ replicate (offset - length (elems (number this))) None ++ slots
      = elems (number this')
          ++ replicate (offset + length slots - length (elems (number this'))) None /\
      (length (elems (number this')) <= offset + length slots)%nat /\
      props (number this') = props (number this).
Proof.
  induction slots as [|[o|] slots IH]; intros offset this Hst Hlen;
    cbn [omap list_omap map decompress_loop length].
  - exists this. rewrite !app_nil_r, !Nat.add_0_r. repeat split; try reflexivity; lia.
  - pose proof (Hst 0%nat o eq_refl) as Ho. rewrite Nat.add_0_r in Ho.
    destruct (record_glyphs_storable _ o Ho) as (h & Hh & Hg & _).
    destruct (decompress_record_storable (Z.of_nat offset) h o this Ho Hh)
      as (this1 & Hrec & Hnum & _).
    unfold bind. rewrite Hg, Hrec.
    assert (elems (number this1)
            = elems (number this) ++ replicate (offset - length (elems (number this))) None
                ++ [Some o]) as Helems.
    { rewrite Hnum. cbn [elems]. unfold array_set, array_index.
      destruct Ho as (_ & Hi & _). unfold _length in Hi.
      assert ((0 <=? Z.of_nat offset) && (Z.of_nat offset <? 4294967295) = true) as ->.
      { apply andb_true_iff. split; [apply Z.leb_le | apply Z.ltb_lt]; lia. }
      cbn [elems]. rewrite Nat2Z.id. case_bool_decide; [lia | reflexivity]. }
    destruct (IH (S offset) this1) as (this' & Hloop & Heq & Hle & Hprops).
    { intros j o' Hj. replace (S offset + j)%nat with (offset + S j)%nat by lia.
      now apply Hst. }
    { rewrite Helems, !length_app, length_replicate. cbn [length]. lia. }
    exists this'. split; [exact Hloop |].
    assert (length (elems (number this1)) = S offset) as Hlen1.
    { rewrite Helems, !length_app, length_replicate. cbn [length]. lia. }
    rewrite Hlen1, Nat.sub_diag in Heq. cbn [replicate app] in Heq.
    split; [|split].
    + replace (offset + S (length slots))%nat with (S offset + length slots)%nat by lia.
      rewrite <- Heq, Helems. now rewrite <- !app_assoc.
    + lia.
    + rewrite Hprops, Hnum. reflexivity.
  - destruct (IH (S offset) this) as (this' & Hloop & Heq & Hle & Hprops).
    { intros j o' Hj. replace (S offset + j)%nat with (offset + S j)%nat by lia.
      now apply Hst. }
    { lia. }
    exists this'. split; [exact Hloop |]. split; [|split; [lia | exact Hprops]].
    replace (offset + S (length slots))%nat with (S offset + length slots)%nat by lia.
    rewrite <- Heq.
    replace (S offset - length (elems (number this)))%nat
      with (S (offset - length (elems (number this))))%nat by lia.
    rewrite replicate_S_end. now rewrite <- !app_assoc.
Qed.

End ImagesCodec.

(** X15: for a table whose slots hold only storable records (number id
    equal to the index, size 1 to 5, type 10 to 40, number hash, all
    within the capacity of their fields and free of line-terminator
    glyphs), compress() succeeds whatever the engine makes of strings,
    and decompress() of its text returns true and rebuilds the array
    slot for slot, holes included, except for holes at its end. *)
Theorem Images_decompress_compress
    (StringToNumber : jsstring -> jsnumber) (names : Names.t) (this receiver : Images.t) :
  (forall (i : nat) o,
     elems (Images.number this) !! i = Some (Some o) -> Images.storable (Z.of_nat i) o) ->
  exists text (holes : nat),
    Images._compress StringToNumber names this = Images.Returns text /\
    fst (Images._decompress names (Some text) receiver) = Ok true /\
    elems (Images.number this)
    = elems (Images.number (snd (Images._decompress names (Some text) receiver)))
        ++ replicate holes None /\
    props (Images.number (snd (Images._decompress names (Some text) receiver))) = ∅.
Proof.
  intros Hst.
  pose proof (compress_loop_storable StringToNumber names (elems (Images.number this)) 0 []
                Hst) as Hc.
  pose proof (match_dot5_storable StringToNumber (elems (Images.number this)) 0 Hst) as Hm.
  destruct (decompress_loop_storable StringToNumber names (elems (Images.number this)) 0
              {| Images.key := Images.key receiver; Images._sizes := Images._sizes receiver;
                 Images.string := ∅; Images.number := {| elems := []; props := ∅ |} |}
              Hst ltac:(cbn; lia)) as (this' & Hloop & Heq & _ & Hprops).
  cbn [app] in Hc. eexists. eexists. split; [exact Hc |].
  unfold Images._decompress, bind, modify, ret. rewrite Hm, Hloop. cbn [fst snd].
  split; [reflexivity |]. split; [|exact Hprops].
  cbn [Images.number elems length replicate app Nat.sub] in Heq. exact Heq.
Qed.

Lemma Images_decompress_compress_witness :
  let this := snd (Images.add Names.empty (Num 1) (Num 64) (Num 12345) (Str (str "jpg"))
                     ArtistImages) in
  exists text (holes : nat),
    Images._compress (fun _ => NaN) Names.empty this = Images.Returns text /\
    fst (Images._decompress Names.empty (Some text) ArtistImages) = Ok true /\
    elems (Images.number this)
    = elems (Images.number (snd (Images._decompress Names.empty (Some text) ArtistImages)))
        ++ replicate holes None /\
    props (Images.number (snd (Images._decompress Names.empty (Some text) ArtistImages))) = ∅.
Proof.
  apply Images_decompress_compress.
  intros [|[|i]] o Ho; try discriminate Ho.
  injection Ho as <-. unfold Images.storable, Images.dot_glyphs. cbn.
  repeat split; try reflexivity; try lia.
  exists 12345. unfold Radix._length. repeat split; reflexivity || lia.
Defined.


(** X14: addUrl throws its own message, naming the URL, whenever the URL
    is missing or empty or has fewer than three matches of digits or
    extensions; and whenever addUrl does not return, for that reason or
    because add rejects the last three matches, the table is left as it
    was. *)
Theorem Images_addUrl_fails
    (names : Names.t) (id : value) (url : option jsstring) (this : Images.t) :
  let array := match url with
               | None | Some [] => []
               | Some url => Images.match_url url
               end in
  let r := Images.addUrl names id url this in
  ((length array < 3)%nat ->
     fst r = Images.ThrowsString
               (str "Url isn't correct: "
                  ++ match url with None => str "undefined" | Some url => url end)) /\
  ((forall v, fst r <> Images.Returns v) -> snd r = this).
Proof.
  intros array r. subst r. unfold Images.addUrl. fold array.
  pose proof (length_rev array) as Hlen.
  destruct (rev array) as [|last [|middle [|first rest]]]; cbn [length] in Hlen;
    try (split; [reflexivity | reflexivity]).
  split; [intros Hshort; lia |].
  pose proof (add_outcome names id (Str first) (Str middle) (Str last) this) as [_ Hkeep].
  cbv zeta in Hkeep.
  destruct (Images.add names id (Str first) (Str middle) (Str last) this) as [[v | e] this'];
    cbn [fst snd Images.of_result] in *.
  - intros Hnot. now destruct (Hnot v).
  - intros _. now apply (Hkeep e).
Qed.

Lemma Images_addUrl_fails_witness :
  fst (Images.addUrl Names.empty (Num 0) (Some (str "http://example.org/64.jpg")) ArtistImages)
  = Images.ThrowsString (str "Url isn't correct: http://example.org/64.jpg") /\
  snd (Images.addUrl Names.empty (Num 0)
         (Some (str "http://userserve-ak.last.fm/serve/64/12345.JPG")) ArtistImages)
  = ArtistImages.
Proof.
  split.
  - apply (proj1 (Images_addUrl_fails Names.empty (Num 0)
                    (Some (str "http://example.org/64.jpg")) ArtistImages)).
    vm_compute. lia.
  - apply (proj2 (Images_addUrl_fails Names.empty (Num 0)
                    (Some (str "http://userserve-ak.last.fm/serve/64/12345.JPG"))
                    ArtistImages)).
    intros v. vm_compute. discriminate.
Defined.

Section ImagesDecompress.

Import Images.

Lemma decompress_loop_returns (names : Names.t) (array : list jsstring) :
  forall this, exists this', decompress_loop names array this = (Ok tt, this').
Proof.
  induction array as [|record array IH]; intros this; cbn [decompress_loop].
  - eexists. reflexivity.
  - unfold bind at 1. unfold decompress_record, decompressNumber, Radix.toNumber,
      bind, lift, modify. cbn [Names.lookup Images.id]. apply IH.
Qed.

End ImagesDecompress.

(** X16: decompress never fails and never reports a failure: for every
    text, every Names table and every receiver it returns true. *)
Theorem Images_decompress_true (names : Names.t) (text : option jsstring) (this : Images.t) :
  fst (Images._decompress names text this) = Ok true.
Proof.
  unfold Images._decompress, bind, modify, ret.
  match goal with
  | |- context [Images.decompress_loop names ?array ?st] =>
      destruct (decompress_loop_returns names array st) as [this' ->]
  end.
  reflexivity.
Qed.

(** X17: a record added under a name that Names does not hold is never
    written by compress(): after such an add, successful or not,
    compress() gives what it gave before. *)
Theorem Images_compress_skips_unknown_name
    (StringToNumber : jsstring -> jsnumber) (names names' : Names.t)
    (name : jsstring) (size hash type : value) (this : Images.t) :
  Names.string names !! name = None ->
  Images._compress StringToNumber names'
    (snd (Images.add names (Str name) size hash type this))
  = Images._compress StringToNumber names' this.
Proof.
  intros Hname. unfold Images.add, bind, lift, modify, ret, throw, Names.lookup.
  rewrite Hname. cbn [rbind].
  destruct (property Images._compressTypes (to_string type)); [|reflexivity].
  destruct (property Images._compressSizes (to_string size)); reflexivity.
Qed.

Lemma Images_compress_skips_unknown_name_witness :
  Images._compress (fun _ => NaN) Names.empty
    (snd (Images.add Names.empty (Str (str "Radiohead")) (Num 64) (Num 7) (Str (str "jpg"))
            ArtistImages))
  = Images._compress (fun _ => NaN) Names.empty ArtistImages.
Proof. apply Images_compress_skips_unknown_name. reflexivity. Defined.

(** ** Storage, compressArray and User *)

(** X18: after Names.save() and then Tracks.save() into the same
    storage, Names.load() rebuilds the saved Names table, on a receiver
    in any state (names without a newline, added to an empty table, the
    table of the single empty name excepted): the two tables do not
    disturb each other's keys. *)
Theorem Names_save_load
    (names : list jsstring) (tracks : Tracks.t)
    (storage storage' : gmap jsstring jsstring) (receiver : Names.t) :
  names <> [[]] ->
  Forall (fun name => newline ∉ name) names ->
  (try! saved := Names.save (Names.add_all names Names.empty) storage in
   Tracks.save tracks saved) = Ok storage' ->
  Names.load storage' receiver = (Ok tt, Names.add_all names Names.empty).
Proof.
  intros Hne Hnl Hsave.
  unfold Names.save, Tracks.save, Storage.save in Hsave. cbn [rbind] in Hsave.
  destruct (Tracks._compress tracks) as [text|]; [|discriminate Hsave].
  cbn [rbind] in Hsave. injection Hsave as <-.
  unfold Names.load, Storage.load, bind.
  rewrite lookup_insert_ne by discriminate. rewrite lookup_insert_eq.
  now rewrite decompress_compress_add_all.
Qed.

Lemma Names_save_load_witness :
  Names.load
    (<[Tracks.key := str "000102"]>
       (<[Names.key := Names._compress (Names.add_all [str "a"; str "b"] Names.empty)]> ∅))
    Names.empty
  = (Ok tt, Names.add_all [str "a"; str "b"] Names.empty).
Proof.
  apply (Names_save_load [str "a"; str "b"]
           (Tracks.add_all [[0; 1; 2]] Tracks.empty) ∅).
  - discriminate.
  - repeat constructor; unfold newline; cbn;
      repeat (apply not_elem_of_cons; split; [discriminate |]); apply not_elem_of_nil.
  - reflexivity.
Defined.

(** X19: decompressArray undoes compressArray on a non-empty array of
    strings without a pipe; the empty array comes back as the array of
    one empty string. *)
Theorem decompressArray_compressArray (array : list jsstring) :
  (array <> [] -> Forall (fun item => pipe ∉ item) array ->
     decompressArray (compressArray array) = array) /\
  decompressArray (compressArray []) = [[]].
Proof.
  split; [|reflexivity]. intros Hne Hpipe. now apply split_join.
Qed.

Lemma decompressArray_compressArray_witness :
  decompressArray (compressArray [str "a"; str ""; str "b,c"]) = [str "a"; str ""; str "b,c"].
Proof.
  apply (proj1 (decompressArray_compressArray [str "a"; str ""; str "b,c"])).
  - discriminate.
  - repeat constructor; unfold pipe; cbn;
      repeat (apply not_elem_of_cons; split; [discriminate |]); apply not_elem_of_nil.
Defined.

Section UserMore.

Import Radix User.

Lemma fromNumber_negative (n : Z) (padding : option Z) :
  n < 0 -> fromNumber (int n) padding = Throw NegativeNumber.
Proof.
  intros Hn. unfold fromNumber, int.
  destruct (Qle_bool 0 (inject_Z n)) eqn:Hle; [|reflexivity].
  apply Qle_bool_iff in Hle. change 0%Q with (inject_Z 0) in Hle.
  rewrite <- Zle_Qle in Hle. lia.
Qed.

(** [fromNumber] returns a string for an integer and a width of 1 or 2
    glyphs exactly when the integer is within the capacity. *)
Lemma fromNumber_returns_iff (n w : Z) (padding : option Z) :
  (padding = None /\ w = 1) \/ (padding = Some 2 /\ w = 2) ->
  (exists text, fromNumber (int n) padding = Ok text) <-> 0 <= n < _length ^ w.
Proof.
  intros Hp. split.
  - intros [text Hok].
    destruct (Z_lt_le_dec n 0) as [Hneg | Hn].
    { rewrite fromNumber_negative in Hok by exact Hneg. discriminate. }
    split; [exact Hn |].
    destruct (unpadded_spec n Hn) as (ds & Hu & _).
    pose proof (natural_width_unpadded n ds Hu) as Hnw.
    rewrite (fromNumber_padded n padding ds Hn Hu) in Hok.
    apply (natural_width_le_iff n w Hn); [lia |].
    destruct Hp as [[-> ->] | [-> ->]]; cbn [Z.eqb] in Hok;
      match type of Hok with context [?a <? ?b] =>
        destruct (Z.ltb_spec a b); [discriminate | lia] end.
  - intros Hr. destruct Hp as [[-> ->] | [-> ->]].
    + rewrite fromNumber_one_glyph by (now rewrite Z.pow_1_r in Hr). eauto.
    + rewrite fromNumber_two_glyphs by exact Hr. eauto.
Qed.

Lemma compress_tracks_returns (tracks : obj Z) :
  forall text, (exists out, compress_tracks tracks text = Ok out) <-> tracks_fit tracks.
Proof.
  unfold tracks_fit.
  induction tracks as [|[track plays] tracks IH]; intros text; cbn [compress_tracks].
  - split; [constructor | eauto].
  - pose proof (fromNumber_returns_iff track 2 (Some 2) ltac:(now right)) as Ht.
    pose proof (fromNumber_returns_iff plays 1 None ltac:(now left)) as Hp.
    rewrite Z.pow_1_r in Hp. unfold compressNumber. split.
    + intros [out Hok].
      destruct (fromNumber (int track) (Some 2)) as [code|]; [|discriminate Hok].
      cbn [rbind] in Hok.
      destruct (fromNumber (int plays) None) as [count|]; [|discriminate Hok].
      cbn [rbind] in Hok. constructor.
      * cbn [fst snd]. split; [apply Ht | apply Hp]; eauto.
      * apply (IH (text ++ code ++ count)). eauto.
    + intros Hfit. inversion Hfit as [|? ? [Htr Hpl] Hrest]; subst. cbn [fst snd] in *.
      apply Ht in Htr as [code ->]. apply Hp in Hpl as [count ->]. cbn [rbind].
      now apply IH.
Qed.

Lemma compress_months_returns (months : obj (obj Z)) :
  forall array, (exists out, compress_months months array = Ok out) <-> months_fit months.
Proof.
  unfold months_fit.
  induction months as [|[month tracks] months IH]; intros array; cbn [compress_months].
  - split; [constructor | eauto].
  - pose proof (fromNumber_returns_iff month 1 None ltac:(now left)) as Hm.
    rewrite Z.pow_1_r in Hm. unfold compressNumber. split.
    + intros [out Hok].
      destruct (fromNumber (int month) None) as [code|]; [|discriminate Hok].
      cbn [rbind] in Hok.
      destruct (compress_tracks tracks code) as [text|] eqn:Htracks; [|discriminate Hok].
      cbn [rbind] in Hok. constructor.
      * cbn [fst snd]. split; [apply Hm; eauto |].
        apply (compress_tracks_returns tracks code). eauto.
      * apply (IH (array ++ [text])). eauto.
    + intros Hfit. inversion Hfit as [|? ? [Hmo Htr] Hrest]; subst. cbn [fst snd] in *.
      apply Hm in Hmo as [code ->]. cbn [rbind].
      apply (compress_tracks_returns tracks code) in Htr as [text ->]. cbn [rbind].
      now apply IH.
Qed.

Lemma compress_years_returns (years : obj (obj (obj Z))) :
  forall array, (exists out, compress_years years array = Ok out) <-> stats_fit years.
Proof.
  unfold stats_fit.
  induction years as [|[year months] years IH]; intros array; cbn [compress_years].
  - split; [constructor | eauto].
  - pose proof (fromNumber_returns_iff year 1 None ltac:(now left)) as Hy.
    rewrite Z.pow_1_r in Hy. unfold compressNumber. split.
    + intros [out Hok].
      destruct (fromNumber (int year) None) as [code|]; [|discriminate Hok].
      cbn [rbind] in Hok.
      destruct (compress_months months (array ++ [code])) as [array1|] eqn:Hmonths;
        [|discriminate Hok].
      cbn [rbind] in Hok. constructor.
      * cbn [fst snd]. split; [apply Hy; eauto |].
        apply (compress_months_returns months (array ++ [code])). eauto.
      * apply (IH array1). eauto.
    + intros Hfit. inversion Hfit as [|? ? [Hye Hmo] Hrest]; subst. cbn [fst snd] in *.
      apply Hy in Hye as [code ->]. cbn [rbind].
      apply (compress_months_returns months (array ++ [code])) in Hmo as [array1 ->].
      cbn [rbind]. now apply IH.
Qed.

End UserMore.

(** X20: compress() of a user record returns a text exactly when every
    year, month and play count of the stats lies in [0, K) and every
    track id in [0, K^2), whatever the loved list holds; any number
    outside its field makes it throw instead of writing a wrapped or
    truncated code. *)
Theorem User_compress_capacity (this : User.t) :
  (exists text, User._compress this = Ok text) <-> User.stats_fit (User.stats this).
Proof.
  unfold User._compress.
  rewrite <- (compress_years_returns (User.stats this)
                [join blank (map decimal (User.loved this))]).
  split.
  - intros [text Hok]. destruct (User.compress_years _ _) as [array|]; [eauto | discriminate].
  - intros [array ->]. cbn [rbind]. eauto.
Qed.

Lemma User_compress_capacity_witness :
  (exists text, User._compress example_user = Ok text) /\
  ~ (exists text,
       User._compress {| User.key := str "nick";
                         User.stats := [(2020, [(3, [(5, 10240)])])];
                         User.loved := [] |} = Ok text).
Proof.
  split.
  - apply (proj2 (User_compress_capacity example_user)).
    repeat constructor; cbn; unfold Radix._length; lia.
  - intros Hok. apply (proj1 (User_compress_capacity _)) in Hok.
    inversion Hok as [|? ? [_ Hmonths] _]; subst.
    inversion Hmonths as [|? ? [_ Htracks] _]; subst.
    inversion Htracks as [|? ? [_ Hplays] _]; subst.
    cbn in Hplays. unfold Radix._length in Hplays. lia.
Defined.

